(** * rpc/util.cpp: destinations, blinding keys, multisig scripts,
      help rendering and asset balances

    A shallow embedding of [src/rpc/util.cpp].  Values of the JSON
    library, the address codec, the key validator, the script encoder
    and the asset directory are collaborators of this file; the first is
    modelled below, the others are interfaces (type classes) the
    functions are parameterised by. *)

From Stdlib Require Import ZArith String Ascii Strings.Byte List Lia.
From stdpp Require Import base option list strings gmap fin_maps sorting pretty.

Set Warnings "-register-all".

Open Scope string_scope.
Open Scope list_scope.
Open Scope Z_scope.

(** ** Bytes, hex and integer casts *)

Abbreviation bytes := (list byte).

Definition hexmap : string := "0123456789abcdef".

Definition hexdigit (n : N) : ascii :=
  match String.get (N.to_nat n) hexmap with
  | Some c => c
  | None => "0"%char
  end.

(** [HexStr(begin, end)]: two lower-case digits per byte, high nibble first. *)
Fixpoint HexStr (bs : bytes) : string :=
  match bs with
  | [] => EmptyString
  | b :: rest =>
      String (hexdigit (Byte.to_N b / 16))
        (String (hexdigit (Byte.to_N b mod 16)) (HexStr rest))
  end.

Definition INT_MAX : Z := 2147483647.
Definition INT_MIN : Z := -2147483648.

(** The conversion [(int)x] of an integer value to a 32-bit [int]:
    reduction modulo 2^32 into the signed range. *)
Definition to_int (x : Z) : Z :=
  (x + 2147483648) mod 4294967296 - 2147483648.

(** ** UniValue

    The JSON value of the univalue library, with the member functions
    this file calls.  An object keeps its entries in insertion order. *)

(** A number is stored by the library as its decimal text; the model
    keeps what the text denotes: an integer ([setInt]) or an amount. *)
Inductive NumVal : Type :=
| IntVal (i : Z)
| AmountVal (satoshi : Z).

Inductive UniValue : Type :=
| VNULL
| VOBJ (kvs : list (string * UniValue))
| VARR (elems : list UniValue)
| VSTR (s : string)
| VNUM (n : NumVal)
| VBOOL (b : bool).

Definition NullUniValue : UniValue := VNULL.

(** [findKey]: index of the first entry with this key. *)
Fixpoint findKey (kvs : list (string * UniValue)) (key : string) : option nat :=
  match kvs with
  | [] => None
  | (k, _) :: rest =>
      if String.eqb k key then Some O
      else match findKey rest key with
           | Some i => Some (S i)
           | None => None
           end
  end.

(** [__pushKV]: append without looking for the key. *)
Definition pushKV_raw (kvs : list (string * UniValue)) (key : string) (v : UniValue)
  : list (string * UniValue) :=
  kvs ++ [(key, v)].

(** [pushKV]: on an object, overwrite the value of an existing key or
    append; on anything else, do nothing (the call returns false). *)
Definition pushKV (u : UniValue) (key : string) (v : UniValue) : UniValue :=
  match u with
  | VOBJ kvs =>
      match findKey kvs key with
      | Some idx => VOBJ (<[idx := (key, v)]> kvs)
      | None => VOBJ (pushKV_raw kvs key v)
      end
  | _ => u
  end.

(** [pushKVs]: append every entry of [obj]; nothing happens unless both
    values are objects. *)
Definition pushKVs (u obj : UniValue) : UniValue :=
  match u, obj with
  | VOBJ kvs, VOBJ more =>
      VOBJ (fold_left (fun acc kv => pushKV_raw acc (fst kv) (snd kv)) more kvs)
  | _, _ => u
  end.

(** [find_value]: the value stored under a key of an object. *)
Fixpoint lookupKV (kvs : list (string * UniValue)) (key : string) : option UniValue :=
  match kvs with
  | [] => None
  | (k, v) :: rest => if String.eqb k key then Some v else lookupKV rest key
  end.

Definition find_value (u : UniValue) (key : string) : option UniValue :=
  match u with
  | VOBJ kvs => lookupKV kvs key
  | _ => None
  end.

Definition isObject (u : UniValue) : bool :=
  match u with VOBJ _ => true | _ => false end.

Definition isNull (u : UniValue) : bool :=
  match u with VNULL => true | _ => false end.

Definition isNum (u : UniValue) : bool :=
  match u with VNUM _ => true | _ => false end.

(** ** RPC errors *)

Definition RPC_INVALID_PARAMETER : Z := -8.
Definition RPC_INVALID_ADDRESS_OR_KEY : Z := -5.

Record JSONRPCError : Type := mkError { code : Z; message : string }.

(** A call either returns or throws a [JSONRPCError]. *)
Inductive rpc (A : Type) : Type :=
| Return (a : A)
| Throw (e : JSONRPCError).
Arguments Return {A} a.
Arguments Throw {A} e.

Definition rpc_bind {A B} (c : rpc A) (k : A -> rpc B) : rpc B :=
  match c with
  | Return a => k a
  | Throw e => Throw e
  end.

Notation "'try!' x <- c ; k" := (rpc_bind c (fun x => k))
  (at level 10, x name, c at level 100, k at level 200).

(** ** Public keys and destinations *)

(** A public key is the bytes between [begin()] and [end()]; the
    default-constructed key [CPubKey()] has none. *)
Abbreviation CPubKey := (list byte).

Definition CPubKey_default : CPubKey := [].

(** Key validator: [CPubKey::IsFullyValid]. *)
Class KeyValidator : Type := { IsFullyValid : CPubKey -> bool }.

Record PKHash : Type := mkPKHash {
  PKHash_id : bytes;
  PKHash_blinding_pubkey : CPubKey }.

Record ScriptHash : Type := mkScriptHash {
  ScriptHash_id : bytes;
  ScriptHash_blinding_pubkey : CPubKey }.

Record WitnessV0KeyHash : Type := mkWitnessV0KeyHash {
  WitnessV0KeyHash_id : bytes;
  WitnessV0KeyHash_blinding_pubkey : CPubKey }.

Record WitnessV0ScriptHash : Type := mkWitnessV0ScriptHash {
  WitnessV0ScriptHash_id : bytes;
  WitnessV0ScriptHash_blinding_pubkey : CPubKey }.

(** The struct's [version], [length], [program] and [blinding_pubkey];
    [program] is the fixed array, of which the first [length] bytes are
    the witness program. *)
Record WitnessUnknown : Type := mkWitnessUnknown {
  WitnessUnknown_version : Z;
  WitnessUnknown_length : nat;
  WitnessUnknown_program : bytes;
  WitnessUnknown_blinding_pubkey : CPubKey }.

Record NullData : Type := mkNullData {
  null_data : list bytes }.

Inductive CTxDestination : Type :=
| DNoDestination
| DPKHash (keyID : PKHash)
| DScriptHash (scriptID : ScriptHash)
| DWitnessV0KeyHash (id : WitnessV0KeyHash)
| DWitnessV0ScriptHash (id : WitnessV0ScriptHash)
| DWitnessUnknown (id : WitnessUnknown)
| DNullData (id : NullData).

(** Address codec: [EncodeDestination] and [DecodeDestination] of key_io. *)
Class AddressCodec : Type := {
  EncodeDestination : CTxDestination -> string;
  DecodeDestination : string -> CTxDestination }.

(** ** DescribeAddress *)

(** The bytes [HexStr(id.program, id.program + id.length)] reads. *)
Definition program_bytes (id : WitnessUnknown) : bytes :=
  take (WitnessUnknown_length id) (WitnessUnknown_program id).

Definition DescribeAddressVisitor (dest : CTxDestination) : UniValue :=
  match dest with
  | DNoDestination => VOBJ []
  | DPKHash keyID =>
      let obj := VOBJ [] in
      let obj := pushKV obj "isscript" (VBOOL false) in
      let obj := pushKV obj "iswitness" (VBOOL false) in
      obj
  | DScriptHash scriptID =>
      let obj := VOBJ [] in
      let obj := pushKV obj "isscript" (VBOOL true) in
      let obj := pushKV obj "iswitness" (VBOOL false) in
      obj
  | DWitnessV0KeyHash id =>
      let obj := VOBJ [] in
      let obj := pushKV obj "isscript" (VBOOL false) in
      let obj := pushKV obj "iswitness" (VBOOL true) in
      let obj := pushKV obj "witness_version" (VNUM (IntVal 0)) in
      let obj := pushKV obj "witness_program" (VSTR (HexStr (WitnessV0KeyHash_id id))) in
      obj
  | DWitnessV0ScriptHash id =>
      let obj := VOBJ [] in
      let obj := pushKV obj "isscript" (VBOOL true) in
      let obj := pushKV obj "iswitness" (VBOOL true) in
      let obj := pushKV obj "witness_version" (VNUM (IntVal 0)) in
      let obj := pushKV obj "witness_program" (VSTR (HexStr (WitnessV0ScriptHash_id id))) in
      obj
  | DWitnessUnknown id =>
      let obj := VOBJ [] in
      let obj := pushKV obj "iswitness" (VBOOL true) in
      let obj := pushKV obj "witness_version" (VNUM (IntVal (to_int (WitnessUnknown_version id)))) in
      let obj := pushKV obj "witness_program" (VSTR (HexStr (program_bytes id))) in
      obj
  | DNullData id =>
      let obj := VOBJ [] in
      let obj := pushKV obj "isscript" (VBOOL false) in
      let obj := pushKV obj "iswitness" (VBOOL false) in
      obj
  end.

Definition DescribeAddress (dest : CTxDestination) : UniValue :=
  DescribeAddressVisitor dest.

(** ** Blinding keys *)

Definition BlindingPubkeyVisitor (dest : CTxDestination) : CPubKey :=
  match dest with
  | DNoDestination => CPubKey_default
  | DPKHash keyID => PKHash_blinding_pubkey keyID
  | DScriptHash scriptID => ScriptHash_blinding_pubkey scriptID
  | DWitnessV0KeyHash id => WitnessV0KeyHash_blinding_pubkey id
  | DWitnessV0ScriptHash id => WitnessV0ScriptHash_blinding_pubkey id
  | DWitnessUnknown id => WitnessUnknown_blinding_pubkey id
  | DNullData id => CPubKey_default
  end.

Definition GetDestinationBlindingKey (dest : CTxDestination) : CPubKey :=
  BlindingPubkeyVisitor dest.

Definition IsBlindDestination `{KeyValidator} (dest : CTxDestination) : bool :=
  IsFullyValid (GetDestinationBlindingKey dest).

Section describe_blind.
Context `{KeyValidator} `{AddressCodec}.

Definition DescribeBlindAddressVisitor (dest : CTxDestination) : UniValue :=
  match dest with
  | DNoDestination => VOBJ []
  | DPKHash pkhash =>
      let obj := VOBJ [] in
      let blind_pub := PKHash_blinding_pubkey pkhash in
      if IsBlindDestination (DPKHash pkhash) then
        let obj := pushKV obj "confidential_key" (VSTR (HexStr blind_pub)) in
        let unblinded := mkPKHash (PKHash_id pkhash) CPubKey_default in
        pushKV obj "unconfidential" (VSTR (EncodeDestination (DPKHash unblinded)))
      else
        let obj := pushKV obj "confidential_key" (VSTR EmptyString) in
        pushKV obj "unconfidential" (VSTR (EncodeDestination (DPKHash pkhash)))
  | DScriptHash scripthash =>
      let obj := VOBJ [] in
      let blind_pub := ScriptHash_blinding_pubkey scripthash in
      if IsBlindDestination (DScriptHash scripthash) then
        let obj := pushKV obj "confidential_key" (VSTR (HexStr blind_pub)) in
        let unblinded := mkScriptHash (ScriptHash_id scripthash) CPubKey_default in
        pushKV obj "unconfidential" (VSTR (EncodeDestination (DScriptHash unblinded)))
      else
        let obj := pushKV obj "confidential_key" (VSTR EmptyString) in
        pushKV obj "unconfidential" (VSTR (EncodeDestination (DScriptHash scripthash)))
  | DWitnessV0KeyHash id =>
      let obj := VOBJ [] in
      let blind_pub := WitnessV0KeyHash_blinding_pubkey id in
      if IsBlindDestination (DWitnessV0KeyHash id) then
        let obj := pushKV obj "confidential_key" (VSTR (HexStr blind_pub)) in
        let unblinded := mkWitnessV0KeyHash (WitnessV0KeyHash_id id) CPubKey_default in
        pushKV obj "unconfidential" (VSTR (EncodeDestination (DWitnessV0KeyHash unblinded)))
      else
        let obj := pushKV obj "confidential_key" (VSTR EmptyString) in
        pushKV obj "unconfidential" (VSTR (EncodeDestination (DWitnessV0KeyHash id)))
  | DWitnessV0ScriptHash id =>
      let obj := VOBJ [] in
      let blind_pub := WitnessV0ScriptHash_blinding_pubkey id in
      if IsBlindDestination (DWitnessV0ScriptHash id) then
        let obj := pushKV obj "confidential_key" (VSTR (HexStr blind_pub)) in
        let unblinded := mkWitnessV0ScriptHash (WitnessV0ScriptHash_id id) CPubKey_default in
        pushKV obj "unconfidential" (VSTR (EncodeDestination (DWitnessV0ScriptHash unblinded)))
      else
        let obj := pushKV obj "confidential_key" (VSTR EmptyString) in
        pushKV obj "unconfidential" (VSTR (EncodeDestination (DWitnessV0ScriptHash id)))
  | DWitnessUnknown id => VOBJ []
  | DNullData id => NullUniValue
  end.

Definition DescribeBlindAddress (dest : CTxDestination) : UniValue :=
  let ret := VOBJ [] in
  let ret := pushKVs ret (DescribeBlindAddressVisitor dest) in
  ret.
End describe_blind.

(** ** CreateMultisigRedeemscript *)

(** Script encoder: [GetScriptForMultisig] and the size limit of a
    script element. *)
Class ScriptEncoder : Type := {
  GetScriptForMultisig : Z -> list CPubKey -> bytes;
  MAX_SCRIPT_ELEMENT_SIZE : Z }.

Definition newline : string := String (ascii_of_nat 10) EmptyString.

Definition msg_required_lt_1 : string :=
  "a multisignature address must require at least one key to redeem".

(** [strprintf("not enough keys supplied (got %u keys, but need at least
    %d to redeem)", pubkeys.size(), required)] *)
Definition msg_not_enough_keys (size required : Z) : string :=
  "not enough keys supplied (got " +:+ pretty size +:+
  " keys, but need at least " +:+ pretty required +:+ " to redeem)".

Definition msg_too_many_keys : string :=
  "Number of keys involved in the multisignature address creation > 16"
  +:+ newline +:+ "Reduce the number".

(** [strprintf("redeemScript exceeds size limit: %d > %d", result.size(),
    MAX_SCRIPT_ELEMENT_SIZE)] *)
Definition msg_script_too_large (size limit : Z) : string :=
  "redeemScript exceeds size limit: " +:+ pretty size +:+ " > " +:+ pretty limit.

(** [v.size()] of a vector or script. *)
Definition size_of {A} (v : list A) : Z := Z.of_nat (List.length v).

Definition CreateMultisigRedeemscript `{ScriptEncoder}
    (required : Z) (pubkeys : list CPubKey) : rpc bytes :=
  if required <? 1 then
    Throw (mkError RPC_INVALID_PARAMETER msg_required_lt_1)
  else if to_int (size_of pubkeys) <? required then
    Throw (mkError RPC_INVALID_PARAMETER (msg_not_enough_keys (size_of pubkeys) required))
  else if size_of pubkeys >? 16 then
    Throw (mkError RPC_INVALID_PARAMETER msg_too_many_keys)
  else
    let result := GetScriptForMultisig required pubkeys in
    if size_of result >? MAX_SCRIPT_ELEMENT_SIZE then
      Throw (mkError RPC_INVALID_PARAMETER
               (msg_script_too_large (size_of result) MAX_SCRIPT_ELEMENT_SIZE))
    else
      Return result.

(** ** RPCArg and RPCHelpMan *)

(** A failed [assert] aborts the process; the two assertions of the help
    renderer are told apart. *)
Inductive assertion : Type :=
| AssertNotOptional   (* assert(!is_optional) *)
| AssertFalse.        (* assert(false) *)

Inductive run (A : Type) : Type :=
| Done (a : A)
| Aborted (which : assertion).
Arguments Done {A} a.
Arguments Aborted {A} which.

Definition run_bind {A B} (c : run A) (k : A -> run B) : run B :=
  match c with
  | Done a => k a
  | Aborted w => Aborted w
  end.

Notation "'do!' x <- c ; k" := (run_bind c (fun x => k))
  (at level 10, x name, c at level 100, k at level 200).

Definition dquote : string := String (ascii_of_nat 34) EmptyString.

Module RPCArg.

Inductive Type_ : Type :=
| STR | STR_HEX | NUM | AMOUNT | BOOL | ARR | OBJ | OBJ_USER_KEYS.

Inductive t : Type :=
| mk (m_name : string) (m_type : Type_) (m_inner : list t) (m_optional : bool).

Definition m_name (a : t) : string := let 'mk n _ _ _ := a in n.
Definition m_type (a : t) : Type_ := let 'mk _ ty _ _ := a in ty.
Definition m_inner (a : t) : list t := let 'mk _ _ inner _ := a in inner.
Definition m_optional (a : t) : bool := let 'mk _ _ _ o := a in o.

(** The loops over [m_inner], each appending to [res] from left to
    right; [f] is the rendering applied to every inner argument. *)
Section loops.
Variable f : t -> run string.

(** [for (const auto& i : m_inner) res += f(i) + ","] *)
Fixpoint arr_loop (res : string) (l : list t) {struct l} : run string :=
  match l with
  | [] => Done res
  | i :: rest =>
      do! s <- f i;
      arr_loop (res +:+ (s +:+ ",")) rest
  end.

(** [for (i = 0; i < size;) { res += f(m_inner[i]);
     if (++i < size) res += ","; }] *)
Fixpoint obj_loop (res : string) (l : list t) {struct l} : run string :=
  match l with
  | [] => Done res
  | i :: rest =>
      do! s <- f i;
      let res := res +:+ s in
      let res := match rest with [] => res | _ :: _ => res +:+ "," end in
      obj_loop res rest
  end.
End loops.

(** [ToString] and [ToStringObj] call each other on the inner
    arguments. *)
Fixpoint ToString (a : t) {struct a} : run string :=
  match a with
  | mk name ty inner _ =>
      match ty with
      | STR_HEX | STR => Done (dquote +:+ name +:+ dquote)
      | NUM | AMOUNT | BOOL => Done name
      | OBJ | OBJ_USER_KEYS =>
          do! res <- obj_loop ToStringObj EmptyString inner;
          match ty with
          | OBJ => Done ("{" +:+ res +:+ "}")
          | _ => Done ("{" +:+ res +:+ ",...}")
          end
      | ARR =>
          do! res <- arr_loop ToString EmptyString inner;
          Done ("[" +:+ res +:+ "...]")
      end
  end
with ToStringObj (a : t) {struct a} : run string :=
  match a with
  | mk name ty inner _ =>
      let res := dquote +:+ name +:+ dquote +:+ ":" in
      match ty with
      | STR => Done (res +:+ (dquote +:+ "str" +:+ dquote))
      | STR_HEX => Done (res +:+ (dquote +:+ "hex" +:+ dquote))
      | NUM => Done (res +:+ "n")
      | AMOUNT => Done (res +:+ "amount")
      | BOOL => Done (res +:+ "bool")
      | ARR =>
          let res := res +:+ "[" in
          do! res <- arr_loop ToString res inner;
          Done (res +:+ "...]")
      | OBJ | OBJ_USER_KEYS => Aborted AssertFalse
      end
  end.

End RPCArg.

Module RPCHelpMan.

Record t : Type := mk { m_name : string; m_args : list RPCArg.t }.

(** The body of the [for] loop, with the loop's variables [ret] and
    [is_optional] threaded through. *)
Fixpoint ToString_loop (ret : string) (is_optional : bool) (args : list RPCArg.t)
  : run (string * bool) :=
  match args with
  | [] => Done (ret, is_optional)
  | arg :: rest =>
      let ret := ret +:+ " " in
      do! st <-
        (if RPCArg.m_optional arg then
           let ret := if negb is_optional then ret +:+ "( " else ret in
           Done (ret, true)
         else
           if negb is_optional then Done (ret, is_optional)
           else Aborted AssertNotOptional);
      do! s <- RPCArg.ToString arg;
      ToString_loop (fst st +:+ s) (snd st) rest
  end.

Definition ToString (h : t) : run string :=
  let ret := EmptyString in
  let ret := ret +:+ m_name h in
  do! st <- ToString_loop ret false (m_args h);
  let ret := if snd st then fst st +:+ " )" else fst st in
  let ret := ret +:+ newline in
  Done ret.

End RPCHelpMan.

(** ** AmountMapToUniv *)

(** An asset is its 256-bit identifier, read as the number whose order is
    the identifier's comparison order; the null asset is zero. *)
Abbreviation CAsset := N.
Abbreviation CAmount := Z.
Abbreviation CAmountMap := (gmap N Z).

Definition IsNull (a : CAsset) : bool := (a =? 0)%N.

(** The chain's configuration and the asset directory: the globals
    [g_con_elementsmode], [policyAsset] and [gAssetsDir], with
    [GetAssetFromString] (which throws when the string names no asset)
    and [CAsset::GetHex]. *)
Class AssetsEnv : Type := {
  g_con_elementsmode : bool;
  policyAsset : CAsset;
  GetAssetFromString : string -> rpc CAsset;
  GetLabel : CAsset -> string;
  GetHex : CAsset -> string }.

(** Modelled from the spec: [ValueFromAmount] (core_io) is not part of
    this file; the spec has it return the numeric amount. *)
Definition ValueFromAmount (amount : CAmount) : UniValue :=
  VNUM (AmountVal amount).

(** [m[k]] of [std::map]: the value under [k], after inserting a
    value-initialised one when [k] is absent. *)
Definition map_index (m : gmap N Z) (k : CAsset) : Z * gmap N Z :=
  match m !! k with
  | Some v => (v, m)
  | None => (0, <[k := 0]> m)
  end.

Definition asset_le (x y : CAsset * CAmount) : Prop := (fst x <= fst y)%N.

#[global] Instance asset_le_dec x y : Decision (asset_le x y).
Proof. unfold asset_le. apply _. Defined.

(** Iteration from [begin()] to [end()]: the entries in key order. *)
Definition map_entries (m : gmap N Z) : list (CAsset * CAmount) :=
  merge_sort asset_le (map_to_list m).

Section amount_map.
Context `{AssetsEnv}.

Definition asset_label (a : CAsset) : string :=
  let label := GetLabel a in
  if String.eqb label EmptyString then GetHex a else label.

Definition AmountMapToUniv_step (obj : UniValue) (it : CAsset * CAmount) : UniValue :=
  if IsNull (fst it) then obj
  else pushKV obj (asset_label (fst it)) (ValueFromAmount (snd it)).

Definition AmountMapToUniv (balanceOrig : gmap N Z) (strasset : string) : rpc UniValue :=
  let balance := balanceOrig in
  let '(v, balance) := map_index balance policyAsset in
  let balance := <[policyAsset := v + 0]> balance in
  if negb g_con_elementsmode || negb (String.eqb strasset EmptyString) then
    if g_con_elementsmode then
      try! asset <- GetAssetFromString strasset;
      Return (ValueFromAmount (fst (map_index balance asset)))
    else
      Return (ValueFromAmount (fst (map_index balance policyAsset)))
  else
    let obj := VOBJ [] in
    Return (fold_left AmountMapToUniv_step (map_entries balance) obj).
End amount_map.

(** ** Reference definitions used in the statements *)

(** The variants that carry a blinding key [describeBlind] reports. *)
Definition blinding_capable (d : CTxDestination) : bool :=
  match d with
  | DPKHash _ | DScriptHash _ | DWitnessV0KeyHash _ | DWitnessV0ScriptHash _ => true
  | DNoDestination | DWitnessUnknown _ | DNullData _ => false
  end.

(** The destination with its blinding key field cleared. *)
Definition clear_blinding_key (d : CTxDestination) : CTxDestination :=
  match d with
  | DNoDestination => DNoDestination
  | DPKHash x => DPKHash (mkPKHash (PKHash_id x) CPubKey_default)
  | DScriptHash x => DScriptHash (mkScriptHash (ScriptHash_id x) CPubKey_default)
  | DWitnessV0KeyHash x =>
      DWitnessV0KeyHash (mkWitnessV0KeyHash (WitnessV0KeyHash_id x) CPubKey_default)
  | DWitnessV0ScriptHash x =>
      DWitnessV0ScriptHash (mkWitnessV0ScriptHash (WitnessV0ScriptHash_id x) CPubKey_default)
  | DWitnessUnknown x =>
      DWitnessUnknown (mkWitnessUnknown (WitnessUnknown_version x) (WitnessUnknown_length x)
                         (WitnessUnknown_program x) CPubKey_default)
  | DNullData x => DNullData x
  end.


(** The version of an unknown witness program fits an [int]. *)
Definition version_is_int (d : CTxDestination) : Prop :=
  match d with
  | DWitnessUnknown id => INT_MIN <= WitnessUnknown_version id <= INT_MAX
  | _ => True
  end.

(** [sub] occurs in [s]. *)
Definition Contains (sub s : string) : Prop :=
  exists pre post, s = pre +:+ sub +:+ post.

(** A required argument comes after an optional one. *)
Definition required_after_optional (args : list RPCArg.t) : Prop :=
  exists l1 a l2 b l3,
    args = l1 ++ a :: l2 ++ b :: l3 /\
    RPCArg.m_optional a = true /\ RPCArg.m_optional b = false.

(** Positional-then-optional: required arguments, then optional ones. *)
Definition well_ordered (args : list RPCArg.t) : Prop :=
  exists req opt,
    args = req ++ opt /\
    Forall (fun a => RPCArg.m_optional a = false) req /\
    Forall (fun a => RPCArg.m_optional a = true) opt.

(** The arguments [args] render, one by one, as the strings [rs]. *)
Definition renders (args : list RPCArg.t) (rs : list string) : Prop :=
  Forall2 (fun a s => RPCArg.ToString a = Done s) args rs.

(** Each rendered argument after a space. *)
Definition spaced (rs : list string) : string :=
  fold_right (fun s acc => " " +:+ s +:+ acc) EmptyString rs.

(** The optional suffix between one pair of parentheses; nothing when
    there is no optional argument. *)
Definition optional_suffix (ro : list string) : string :=
  match ro with
  | [] => EmptyString
  | s :: ro' => " ( " +:+ s +:+ spaced ro' +:+ " )"
  end.

(** The types rendered as the bare name. *)
Definition bare_name_type (ty : RPCArg.Type_) : bool :=
  match ty with
  | RPCArg.NUM | RPCArg.AMOUNT | RPCArg.BOOL => true
  | _ => false
  end.

(** The only assertion an argument's own rendering can fail is
    [assert(false)]. *)
Definition aborts_only_false (r : run string) : Prop :=
  forall w, r = Aborted w -> w = AssertFalse.

(** Structural induction on an argument, with the property available
    for every inner argument. *)
Section RPCArg_induction.
Variable P : RPCArg.t -> Prop.
Hypothesis case_mk : forall name ty inner optional,
    Forall P inner -> P (RPCArg.mk name ty inner optional).

Fixpoint RPCArg_nested_ind (a : RPCArg.t) : P a :=
  match a with
  | RPCArg.mk name ty inner optional =>
      case_mk name ty inner optional
        ((fix all (l : list RPCArg.t) : Forall P l :=
            match l with
            | [] => @List.Forall_nil _ P
            | x :: rest => @List.Forall_cons _ P x rest (RPCArg_nested_ind x) (all rest)
            end) inner)
  end.
End RPCArg_induction.

(** The amount an asset reads as: zero when the map has no entry. *)
Definition amount_of (m : gmap N Z) (a : CAsset) : CAmount :=
  match m !! a with
  | Some v => v
  | None => 0
  end.

(** The map with the policy-asset entry forced present. *)
Definition with_policy `{AssetsEnv} (m : gmap N Z) : gmap N Z :=
  <[policyAsset := amount_of m policyAsset]> m.

(** The assets a report is about: those of the map, and the policy asset. *)
Definition reported `{AssetsEnv} (m : gmap N Z) (a : CAsset) : Prop :=
  is_Some (m !! a) \/ a = policyAsset.

(** The entries of an object. *)
Definition entries (u : UniValue) : list (string * UniValue) :=
  match u with
  | VOBJ kvs => kvs
  | _ => []
  end.

(** What the loop over the entries [L] makes of an object with the
    entries [kvs]. *)
Definition report `{AssetsEnv} (L : list (CAsset * CAmount))
    (kvs : list (string * UniValue)) : list (string * UniValue) :=
  entries (fold_left AmountMapToUniv_step L (VOBJ kvs)).

(** ** Sample collaborators, to run the functions on concrete inputs *)

Module Sample.

(** Accepts the keys with a compressed-key header and length. *)
#[export] Instance validator : KeyValidator :=
  {| IsFullyValid := fun k =>
       match k with
       | b :: _ => (Nat.eqb (List.length k) 33 &&
                    (Byte.eqb b x02 || Byte.eqb b x03))%bool
       | [] => false
       end |}.

Definition hexval (c : ascii) : N :=
  let n := N_of_ascii c in
  if (n <? 58)%N then (n - 48)%N else (n - 87)%N.

Fixpoint unhex (s : string) : bytes :=
  match s with
  | String hi (String lo rest) =>
      match Byte.of_N (hexval hi * 16 + hexval lo) with
      | Some b => b :: unhex rest
      | None => []
      end
  | _ => []
  end.

Fixpoint split_slash (s : string) : string * string :=
  match s with
  | EmptyString => (EmptyString, EmptyString)
  | String c rest =>
      if Ascii.eqb c "/" then (EmptyString, rest)
      else let p := split_slash rest in (String c (fst p), snd p)
  end.

(** A toy address format: a letter for the variant, then the hash and
    the blinding key in hex. *)
Definition encode (d : CTxDestination) : string :=
  match d with
  | DPKHash x => "P" +:+ HexStr (PKHash_id x) +:+ "/" +:+ HexStr (PKHash_blinding_pubkey x)
  | DScriptHash x =>
      "S" +:+ HexStr (ScriptHash_id x) +:+ "/" +:+ HexStr (ScriptHash_blinding_pubkey x)
  | DWitnessV0KeyHash x =>
      "K" +:+ HexStr (WitnessV0KeyHash_id x) +:+ "/"
      +:+ HexStr (WitnessV0KeyHash_blinding_pubkey x)
  | DWitnessV0ScriptHash x =>
      "W" +:+ HexStr (WitnessV0ScriptHash_id x) +:+ "/"
      +:+ HexStr (WitnessV0ScriptHash_blinding_pubkey x)
  | _ => EmptyString
  end.

Definition decode (s : string) : CTxDestination :=
  match s with
  | String tag body =>
      let p := split_slash body in
      let id := unhex (fst p) in
      let key := unhex (snd p) in
      if Ascii.eqb tag "P" then DPKHash (mkPKHash id key)
      else if Ascii.eqb tag "S" then DScriptHash (mkScriptHash id key)
      else if Ascii.eqb tag "K" then DWitnessV0KeyHash (mkWitnessV0KeyHash id key)
      else if Ascii.eqb tag "W" then DWitnessV0ScriptHash (mkWitnessV0ScriptHash id key)
      else DNoDestination
  | EmptyString => DNoDestination
  end.

#[export] Instance codec : AddressCodec :=
  {| EncodeDestination := encode; DecodeDestination := decode |}.

Definition key33 : CPubKey := x02 :: repeat x11 32.
Definition hash20 : bytes := repeat xab 20.

(** A confidential pay-to-pubkey-hash destination. *)
Definition blinded_pkh : CTxDestination := DPKHash (mkPKHash hash20 key33).

(** The multisig script: OP_n, the pushed keys, OP_m, OP_CHECKMULTISIG;
    the size limit of a script element is 520 bytes. *)
Definition byte_of_Z (z : Z) : byte :=
  match Byte.of_N (Z.to_N (z mod 256)) with
  | Some b => b
  | None => x00
  end.

Definition EncodeOP_N (n : Z) : byte :=
  if n =? 0 then x00 else byte_of_Z (80 + n).

Definition push_data (data : bytes) : bytes :=
  if size_of data <? 76 then byte_of_Z (size_of data) :: data
  else x4c :: byte_of_Z (size_of data) :: data.

Definition script_for_multisig (nRequired : Z) (keys : list CPubKey) : bytes :=
  [EncodeOP_N nRequired] ++ concat (map push_data keys)
  ++ [EncodeOP_N (size_of keys); xae].

#[export] Instance encoder : ScriptEncoder :=
  {| GetScriptForMultisig := script_for_multisig;
     MAX_SCRIPT_ELEMENT_SIZE := 520 |}.

(** A chain with assets: asset 1 is the policy asset, labelled
    "bitcoin"; the string "A" names asset 5. *)
Definition asset_from_string (s : string) : rpc CAsset :=
  if String.eqb s "bitcoin" then Return 1%N
  else if String.eqb s "A" then Return 5%N
  else Throw (mkError (-4) "Unknown label and invalid asset hex").

Definition label_of (a : CAsset) : string :=
  if (a =? 1)%N then "bitcoin" else EmptyString.

Definition hex_of (a : CAsset) : string := "0x" +:+ pretty a.

Definition elements_env : AssetsEnv :=
  {| g_con_elementsmode := true; policyAsset := 1%N;
     GetAssetFromString := asset_from_string;
     GetLabel := label_of; GetHex := hex_of |}.

(** The same directory on a chain without assets. *)
Definition single_asset_env : AssetsEnv :=
  {| g_con_elementsmode := false; policyAsset := 1%N;
     GetAssetFromString := asset_from_string;
     GetLabel := label_of; GetHex := hex_of |}.

(** 7 of asset 5, 3 of the policy asset. *)
Definition balance_A_policy : gmap N Z := <[5%N := 7]> (<[1%N := 3]> ∅).

(** 5 of asset 5, 3 of the policy asset, 9 of the null asset. *)
Definition balance_with_null : gmap N Z :=
  <[5%N := 5]> (<[1%N := 3]> (<[0%N := 9]> ∅)).

End Sample.

(** ** HexToPubKey and AddrToPubKey *)

Definition RPC_INTERNAL_ERROR : Z := -32603.

(** Hex parsing ([IsHex], [ParseHex]) and the construction of a key from
    a byte vector ([CPubKey(const std::vector<unsigned char>&)]). *)
Class KeyParser : Type := {
  IsHex : string -> bool;
  ParseHex : string -> bytes;
  CPubKey_of_vch : bytes -> CPubKey }.

Definition HexToPubKey `{KeyValidator} `{KeyParser} (hex_in : string) : rpc CPubKey :=
  if negb (IsHex hex_in) then
    Throw (mkError RPC_INVALID_ADDRESS_OR_KEY ("Invalid public key: " +:+ hex_in))
  else
    let vchPubKey := CPubKey_of_vch (ParseHex hex_in) in
    if negb (IsFullyValid vchPubKey) then
      Throw (mkError RPC_INVALID_ADDRESS_OR_KEY ("Invalid public key: " +:+ hex_in))
    else
      Return vchPubKey.

Abbreviation CKeyID := (list byte).

(** The key store and the functions over it: [IsValidDestination],
    [GetKeyForDestination], [CKeyID::IsNull] and [CKeyStore::GetPubKey],
    whose boolean result and output parameter are an option. *)
Class KeyStoreOps : Type := {
  CKeyStore : Type;
  IsValidDestination : CTxDestination -> bool;
  GetKeyForDestination : CKeyStore -> CTxDestination -> CKeyID;
  CKeyID_IsNull : CKeyID -> bool;
  GetPubKey : CKeyStore -> CKeyID -> option CPubKey }.

Definition AddrToPubKey `{KeyValidator} `{AddressCodec} `{KeyStoreOps}
    (keystore : CKeyStore) (addr_in : string) : rpc CPubKey :=
  let dest := DecodeDestination addr_in in
  if negb (IsValidDestination dest) then
    Throw (mkError RPC_INVALID_ADDRESS_OR_KEY ("Invalid address: " +:+ addr_in))
  else
    let key := GetKeyForDestination keystore dest in
    if CKeyID_IsNull key then
      Throw (mkError RPC_INVALID_ADDRESS_OR_KEY (addr_in +:+ " does not refer to a key"))
    else
      match GetPubKey keystore key with
      | None =>
          Throw (mkError RPC_INVALID_ADDRESS_OR_KEY
                   ("no full public key for address " +:+ addr_in))
      | Some vchPubKey =>
          if negb (IsFullyValid vchPubKey) then
            Throw (mkError RPC_INTERNAL_ERROR "Wallet contains an invalid public key")
          else
            Return vchPubKey
      end.

(** ** Further reference definitions *)

(** An argument renders: no object has an object as one of its entries,
    at any depth.  [renderable_entry] is the same for an argument used
    as an entry of an object. *)
Fixpoint renderable (a : RPCArg.t) {struct a} : bool :=
  match a with
  | RPCArg.mk _ ty inner _ =>
      match ty with
      | RPCArg.ARR => forallb renderable inner
      | RPCArg.OBJ | RPCArg.OBJ_USER_KEYS => forallb renderable_entry inner
      | _ => true
      end
  end
with renderable_entry (a : RPCArg.t) {struct a} : bool :=
  match a with
  | RPCArg.mk _ ty inner _ =>
      match ty with
      | RPCArg.ARR => forallb renderable inner
      | RPCArg.OBJ | RPCArg.OBJ_USER_KEYS => false
      | _ => true
      end
  end.

(** The inner arguments render, as entries of an object, as [es]. *)
Definition renders_entries (inner : list RPCArg.t) (es : list string) : Prop :=
  Forall2 (fun a s => RPCArg.ToStringObj a = Done s) inner es.

(** Each string followed by a comma. *)
Definition each_comma (rs : list string) : string :=
  fold_right (fun s acc => s +:+ "," +:+ acc) EmptyString rs.

(** The strings with a comma between them. *)
Fixpoint comma_separated (rs : list string) : string :=
  match rs with
  | [] => EmptyString
  | s :: rest =>
      match rest with
      | [] => s
      | _ :: _ => s +:+ "," +:+ comma_separated rest
      end
  end.

(** The entry of the report for one entry of the balance map. *)
Definition report_entry `{AssetsEnv} (it : CAsset * CAmount) : string * UniValue :=
  (asset_label (fst it), ValueFromAmount (snd it)).

Definition not_null (it : CAsset * CAmount) : bool := negb (IsNull (fst it)).

(** Labels tell the reported assets that are not null apart. *)
Definition labels_distinct `{AssetsEnv} (m : gmap N Z) : Prop :=
  forall a b, reported m a -> reported m b -> IsNull a = false -> IsNull b = false ->
              asset_label a = asset_label b -> a = b.

(** The keys of an object, in order. *)
Definition keys_of (u : UniValue) : list string := map fst (entries u).

Module SampleKeys.

Definition is_hex_digit (c : ascii) : bool :=
  let n := N_of_ascii c in
  ((48 <=? n) && (n <=? 57) || (97 <=? n) && (n <=? 102))%N.

Fixpoint all_hex (s : string) : bool :=
  match s with
  | EmptyString => true
  | String c rest => is_hex_digit c && all_hex rest
  end.

Definition is_hex (s : string) : bool :=
  negb (String.eqb s EmptyString) && Nat.even (String.length s) && all_hex s.

(** A key keeps its bytes when their number is the one its header
    announces, and is the empty key otherwise. *)
Definition key_of_vch (v : bytes) : CPubKey :=
  match v with
  | b :: _ =>
      if ((Byte.eqb b x02 || Byte.eqb b x03) && Nat.eqb (List.length v) 33)%bool then v
      else if ((Byte.eqb b x04 || Byte.eqb b x06 || Byte.eqb b x07)
               && Nat.eqb (List.length v) 65)%bool then v
      else CPubKey_default
  | [] => CPubKey_default
  end.

Fixpoint bytes_eqb (a b : bytes) : bool :=
  match a, b with
  | [], [] => true
  | x :: a', y :: b' => Byte.eqb x y && bytes_eqb a' b'
  | _, _ => false
  end.

#[export] Instance parser : KeyParser :=
  {| IsHex := is_hex; ParseHex := Sample.unhex; CPubKey_of_vch := key_of_vch |}.

(** A key store as the list of its key ids and public keys; only a
    pay-to-pubkey-hash destination refers to a key. *)
#[export] Instance store_ops : KeyStoreOps :=
  {| CKeyStore := list (CKeyID * CPubKey);
     IsValidDestination := fun d =>
       match d with DNoDestination => false | _ => true end;
     GetKeyForDestination := fun _ d =>
       match d with DPKHash x => PKHash_id x | _ => repeat x00 20 end;
     CKeyID_IsNull := forallb (Byte.eqb x00);
     GetPubKey := fun store id =>
       match List.find (fun e => bytes_eqb (fst e) id) store with
       | Some e => Some (snd e)
       | None => None
       end |}.

Definition store : list (CKeyID * CPubKey) :=
  [(Sample.hash20, Sample.key33); (repeat xcd 20, [x02; x11])].

End SampleKeys.

(** * Properties *)

(** ** Integer casts *)

Lemma to_int_id (x : Z) : INT_MIN <= x <= INT_MAX -> to_int x = x.
Proof.
  unfold to_int, INT_MIN, INT_MAX. intros Hx.
  rewrite Z.mod_small by lia. lia.
Qed.

(** ** Destinations *)

(** C5: for every destination, [describe] returns exactly the fields of
    the table: no field for NoDestination; isscript and iswitness for
    PubkeyHash, ScriptHash and NullData; those two with witness_version 0
    and the hex of the hash for the two version-0 witness variants; and
    iswitness, the version and the hex of the program, without isscript,
    for an unknown witness version (a version that fits an int). *)
Theorem DescribeAddress_table (dest : CTxDestination) :
  version_is_int dest ->
  DescribeAddress dest =
  match dest with
  | DNoDestination => VOBJ []
  | DPKHash _ => VOBJ [("isscript", VBOOL false); ("iswitness", VBOOL false)]
  | DScriptHash _ => VOBJ [("isscript", VBOOL true); ("iswitness", VBOOL false)]
  | DWitnessV0KeyHash id =>
      VOBJ [("isscript", VBOOL false); ("iswitness", VBOOL true);
            ("witness_version", VNUM (IntVal 0));
            ("witness_program", VSTR (HexStr (WitnessV0KeyHash_id id)))]
  | DWitnessV0ScriptHash id =>
      VOBJ [("isscript", VBOOL true); ("iswitness", VBOOL true);
            ("witness_version", VNUM (IntVal 0));
            ("witness_program", VSTR (HexStr (WitnessV0ScriptHash_id id)))]
  | DWitnessUnknown id =>
      VOBJ [("iswitness", VBOOL true);
            ("witness_version", VNUM (IntVal (WitnessUnknown_version id)));
            ("witness_program", VSTR (HexStr (program_bytes id)))]
  | DNullData _ => VOBJ [("isscript", VBOOL false); ("iswitness", VBOOL false)]
  end.
Proof.
  intros Hv. destruct dest as [ | | | | | id | ]; try reflexivity.
  simpl in Hv. unfold DescribeAddress, DescribeAddressVisitor.
  rewrite (to_int_id _ Hv). reflexivity.
Qed.

Lemma DescribeAddress_table_witness :
  version_is_int (DWitnessUnknown (mkWitnessUnknown 3 2 [x01; x02; x03]%byte [])) /\
  DescribeAddress (DWitnessUnknown (mkWitnessUnknown 3 2 [x01; x02; x03]%byte [])) =
  VOBJ [("iswitness", VBOOL true); ("witness_version", VNUM (IntVal 3));
        ("witness_program", VSTR "0102")].
Proof.
  assert (Hv : version_is_int
                 (DWitnessUnknown (mkWitnessUnknown 3 2 [x01; x02; x03]%byte []))).
  { simpl. unfold INT_MIN, INT_MAX. lia. }
  split; [exact Hv | ].
  exact (DescribeAddress_table _ Hv).
Defined.

(** C3, as stated, fails: an unknown-witness destination has a
    [blinding_pubkey] field, and [getBlindingKey] returns it. *)
Lemma GetDestinationBlindingKey_WitnessUnknown_stored :
  GetDestinationBlindingKey
    (DWitnessUnknown (mkWitnessUnknown 1 2 [x51; x52]%byte Sample.key33))
  <> CPubKey_default.
Proof. discriminate. Qed.

(** C3, amended: [getBlindingKey] returns the stored blinding key for
    PubkeyHash, ScriptHash, WitnessV0PubkeyHash, WitnessV0ScriptHash and
    WitnessUnknown, and the empty key for NoDestination and NullData. *)
Theorem GetDestinationBlindingKey_variants (dest : CTxDestination) :
  GetDestinationBlindingKey dest =
  match dest with
  | DNoDestination => CPubKey_default
  | DPKHash keyID => PKHash_blinding_pubkey keyID
  | DScriptHash scriptID => ScriptHash_blinding_pubkey scriptID
  | DWitnessV0KeyHash id => WitnessV0KeyHash_blinding_pubkey id
  | DWitnessV0ScriptHash id => WitnessV0ScriptHash_blinding_pubkey id
  | DWitnessUnknown id => WitnessUnknown_blinding_pubkey id
  | DNullData _ => CPubKey_default
  end.
Proof. destruct dest; reflexivity. Qed.

(** ** describeBlind *)

Lemma pushKVs_empty_obj (kvs : list (string * UniValue)) :
  pushKVs (VOBJ []) (VOBJ kvs) = VOBJ kvs.
Proof.
  unfold pushKVs.
  assert (Hgen : forall more acc,
             fold_left (fun acc kv => pushKV_raw acc (fst kv) (snd kv)) more acc
             = acc ++ more).
  { induction more as [ | [k v] more IH]; intros acc; simpl.
    - now rewrite app_nil_r.
    - rewrite IH. unfold pushKV_raw. now rewrite <- app_assoc. }
  now rewrite Hgen.
Qed.

Lemma pushKVs_not_obj (u v : UniValue) : isObject v = false -> pushKVs u v = u.
Proof. destruct u, v; simpl; intros; try reflexivity; discriminate. Qed.

(** C4, as stated, fails for NullData: the visitor's null result is
    merged into the object [describeBlind] returns. *)
Lemma DescribeBlindAddress_NullData_not_null :
  @DescribeBlindAddress Sample.validator Sample.codec (DNullData (mkNullData []))
  <> NullUniValue /\
  isObject (@DescribeBlindAddress Sample.validator Sample.codec (DNullData (mkNullData [])))
  = true.
Proof. split; [discriminate | reflexivity]. Qed.

(** C4, amended: [describeBlind] returns an empty object for every
    NoDestination, WitnessUnknown and NullData destination; for NullData
    the visitor's own result is null, which adds nothing to the object. *)
Theorem DescribeBlindAddress_without_key `{KeyValidator} `{AddressCodec} :
  DescribeBlindAddress DNoDestination = VOBJ [] /\
  (forall id, DescribeBlindAddress (DWitnessUnknown id) = VOBJ []) /\
  (forall id, DescribeBlindAddress (DNullData id) = VOBJ []) /\
  (forall id, DescribeBlindAddressVisitor (DNullData id) = NullUniValue).
Proof. repeat split; intros; reflexivity. Qed.

Lemma DescribeBlindAddressVisitor_capable `{KeyValidator} `{AddressCodec}
    (d : CTxDestination) :
  blinding_capable d = true ->
  DescribeBlindAddressVisitor d =
  if IsFullyValid (GetDestinationBlindingKey d) then
    VOBJ [("confidential_key", VSTR (HexStr (GetDestinationBlindingKey d)));
          ("unconfidential", VSTR (EncodeDestination (clear_blinding_key d)))]
  else
    VOBJ [("confidential_key", VSTR EmptyString);
          ("unconfidential", VSTR (EncodeDestination d))].
Proof.
  intros Hcap.
  destruct d as [ | x | x | x | x | x | x ]; try discriminate Hcap;
    unfold DescribeBlindAddressVisitor, IsBlindDestination; simpl;
    destruct (IsFullyValid _); reflexivity.
Qed.









(** ** Strings *)

Lemma string_app_assoc (s1 s2 s3 : string) :
  (s1 +:+ s2) +:+ s3 = s1 +:+ (s2 +:+ s3).
Proof.
  induction s1 as [ | c s1 IH]; [reflexivity | ].
  change (String c ((s1 +:+ s2) +:+ s3) = String c (s1 +:+ (s2 +:+ s3))).
  now rewrite IH.
Qed.

Lemma string_app_nil_r (s : string) : s +:+ EmptyString = s.
Proof.
  induction s as [ | c s IH]; [reflexivity | ].
  change (String c (s +:+ EmptyString) = String c s). now rewrite IH.
Qed.

Lemma Contains_here (pre sub post : string) : Contains sub (pre +:+ sub +:+ post).
Proof. now exists pre, post. Qed.

Lemma Contains_prepend (pre sub s : string) : Contains sub s -> Contains sub (pre +:+ s).
Proof.
  intros (a & b & ->). exists (pre +:+ a), b. now rewrite string_app_assoc.
Qed.

(** ** Multisig redeem scripts *)

Lemma msg_not_enough_keys_counts (size required : Z) :
  Contains (pretty size) (msg_not_enough_keys size required) /\
  Contains (pretty required) (msg_not_enough_keys size required).
Proof.
  unfold msg_not_enough_keys. split.
  - apply Contains_here.
  - do 2 apply Contains_prepend. apply Contains_here.
Qed.

Lemma msg_script_too_large_sizes (size limit : Z) :
  Contains (pretty size) (msg_script_too_large size limit) /\
  Contains (pretty limit) (msg_script_too_large size limit).
Proof.
  unfold msg_script_too_large. split.
  - apply Contains_here.
  - do 3 apply Contains_prepend.
    exists EmptyString, EmptyString. now rewrite string_app_nil_r.
Qed.

(** C2: [build] checks, in this order and stopping at the first failure,
    threshold < 1, then fewer keys than the threshold (the message cites
    both counts), then more than 16 keys, then builds the script and
    checks its length against MAX_SCRIPT_ELEMENT_SIZE (the message cites
    both sizes); every failure is an InvalidParameter error, and a
    success returns the script as built.  The key count is one an [int]
    holds. *)
Theorem CreateMultisigRedeemscript_validation `{ScriptEncoder}
    (required : Z) (pubkeys : list CPubKey) :
  size_of pubkeys <= INT_MAX ->
  let n := size_of pubkeys in
  let script := GetScriptForMultisig required pubkeys in
  let result := CreateMultisigRedeemscript required pubkeys in
  (required < 1 ->
     result = Throw (mkError RPC_INVALID_PARAMETER msg_required_lt_1)) /\
  (1 <= required -> n < required ->
     exists msg, result = Throw (mkError RPC_INVALID_PARAMETER msg) /\
                 Contains (pretty n) msg /\ Contains (pretty required) msg) /\
  (1 <= required <= n -> 16 < n ->
     result = Throw (mkError RPC_INVALID_PARAMETER msg_too_many_keys)) /\
  (1 <= required <= n -> n <= 16 -> MAX_SCRIPT_ELEMENT_SIZE < size_of script ->
     exists msg, result = Throw (mkError RPC_INVALID_PARAMETER msg) /\
                 Contains (pretty (size_of script)) msg /\
                 Contains (pretty MAX_SCRIPT_ELEMENT_SIZE) msg) /\
  (1 <= required <= n -> n <= 16 -> size_of script <= MAX_SCRIPT_ELEMENT_SIZE ->
     result = Return script) /\
  (forall r, result = Return r -> r = script) /\
  (forall e, result = Throw e -> code e = RPC_INVALID_PARAMETER).
Proof.
  intros Hn n script result.
  assert (Hcast : to_int n = n).
  { apply to_int_id. unfold n, size_of, INT_MIN in *. lia. }
  subst result. unfold CreateMultisigRedeemscript. fold n. rewrite Hcast. fold script.
  destruct (Z.ltb_spec required 1) as [H1 | H1].
  { repeat split; intros; try lia; try discriminate; try reflexivity.
    match goal with E : Throw _ = Throw _ |- _ => now inversion E end. }
  destruct (Z.ltb_spec n required) as [H2 | H2].
  { repeat split; intros; try lia; try discriminate.
    - eexists. split; [reflexivity | apply msg_not_enough_keys_counts].
    - match goal with E : Throw _ = Throw _ |- _ => now inversion E end. }
  destruct (Z.gtb_spec n 16) as [H3 | H3].
  { repeat split; intros; try lia; try discriminate; try reflexivity.
    match goal with E : Throw _ = Throw _ |- _ => now inversion E end. }
  destruct (Z.gtb_spec (size_of script) MAX_SCRIPT_ELEMENT_SIZE) as [H4 | H4].
  { repeat split; intros; try lia; try discriminate.
    - eexists. split; [reflexivity | apply msg_script_too_large_sizes].
    - match goal with E : Throw _ = Throw _ |- _ => now inversion E end. }
  repeat split; intros; try lia; try discriminate; try reflexivity.
  match goal with E : Return _ = Return _ |- _ => now inversion E end.
Qed.

Lemma CreateMultisigRedeemscript_validation_witness :
  size_of [Sample.key33] <= INT_MAX /\
  exists msg,
    @CreateMultisigRedeemscript Sample.encoder 2 [Sample.key33]
    = Throw (mkError RPC_INVALID_PARAMETER msg) /\
    Contains "1" msg /\ Contains "2" msg.
Proof.
  assert (Hn : size_of [Sample.key33] <= INT_MAX) by (vm_compute; discriminate).
  split; [exact Hn | ].
  destruct (@CreateMultisigRedeemscript_validation Sample.encoder 2 [Sample.key33] Hn)
    as (_ & Hfew & _).
  apply Hfew; [lia | vm_compute; reflexivity].
Defined.

(** The spec's other cases, run on the sample encoder. *)
Example build_zero_threshold :
  @CreateMultisigRedeemscript Sample.encoder 0 [Sample.key33]
  = Throw (mkError RPC_INVALID_PARAMETER msg_required_lt_1).
Proof. reflexivity. Qed.

Example build_seventeen_keys :
  @CreateMultisigRedeemscript Sample.encoder 1 (repeat Sample.key33 17)
  = Throw (mkError RPC_INVALID_PARAMETER msg_too_many_keys).
Proof. reflexivity. Qed.

Example build_script_too_large :
  @CreateMultisigRedeemscript Sample.encoder 1 (repeat Sample.key33 16)
  = Throw (mkError RPC_INVALID_PARAMETER "redeemScript exceeds size limit: 547 > 520").
Proof. vm_compute. reflexivity. Qed.

Example build_two_of_three :
  @CreateMultisigRedeemscript Sample.encoder 2 (repeat Sample.key33 3)
  = Return (Sample.script_for_multisig 2 (repeat Sample.key33 3)).
Proof. vm_compute. reflexivity. Qed.

(** ** Help rendering *)


Lemma arr_loop_aborts (f : RPCArg.t -> run string) (l : list RPCArg.t) :
  Forall (fun a => aborts_only_false (f a)) l ->
  forall res, aborts_only_false (RPCArg.arr_loop f res l).
Proof.
  induction 1 as [ | a l Ha _ IH]; intros res w; simpl.
  - discriminate.
  - destruct (f a) as [s | w'] eqn:E; simpl.
    + apply IH.
    + intros [= <-]. now apply Ha.
Qed.

Lemma obj_loop_aborts (f : RPCArg.t -> run string) (l : list RPCArg.t) :
  Forall (fun a => aborts_only_false (f a)) l ->
  forall res, aborts_only_false (RPCArg.obj_loop f res l).
Proof.
  induction 1 as [ | a l Ha _ IH]; intros res w; simpl.
  - discriminate.
  - destruct (f a) as [s | w'] eqn:E; simpl.
    + apply IH.
    + intros [= <-]. now apply Ha.
Qed.

Lemma RPCArg_ToString_aborts (a : RPCArg.t) :
  aborts_only_false (RPCArg.ToString a) /\ aborts_only_false (RPCArg.ToStringObj a).
Proof.
  induction a as [name ty inner optional IH] using RPCArg_nested_ind.
  assert (IH1 : Forall (fun a => aborts_only_false (RPCArg.ToString a)) inner)
    by (eapply Forall_impl; [exact IH | now intros ? []]).
  assert (IH2 : Forall (fun a => aborts_only_false (RPCArg.ToStringObj a)) inner)
    by (eapply Forall_impl; [exact IH | now intros ? []]).
  split; intros w; destruct ty; simpl; try discriminate; try (now intros [= <-]).
  - destruct (RPCArg.arr_loop _ _ _) eqn:E; simpl; [discriminate | ].
    intros [= <-]. exact (arr_loop_aborts _ _ IH1 _ _ E).
  - destruct (RPCArg.obj_loop _ _ _) eqn:E; simpl; [discriminate | ].
    intros [= <-]. exact (obj_loop_aborts _ _ IH2 _ _ E).
  - destruct (RPCArg.obj_loop _ _ _) eqn:E; simpl; [discriminate | ].
    intros [= <-]. exact (obj_loop_aborts _ _ IH2 _ _ E).
  - destruct (RPCArg.arr_loop _ _ _) eqn:E; simpl; [discriminate | ].
    intros [= <-]. exact (arr_loop_aborts _ _ IH1 _ _ E).
Qed.

(** Once an optional argument was seen, a required one further on makes
    the loop abort. *)
Lemma ToString_loop_required_seen (args : list RPCArg.t) :
  Exists (fun b => RPCArg.m_optional b = false) args ->
  forall ret, exists w, RPCHelpMan.ToString_loop ret true args = Aborted w.
Proof.
  induction args as [ | a args IH]; intros Hex ret.
  - inversion Hex.
  - simpl. destruct (RPCArg.m_optional a) eqn:Ha; simpl.
    + destruct (RPCArg.ToString a) as [s | w]; simpl; [ | now eexists].
      apply IH. inversion Hex; subst; [congruence | assumption].
    + now eexists.
Qed.

Lemma ToString_loop_violation (args : list RPCArg.t) :
  required_after_optional args ->
  forall ret is_optional,
    exists w, RPCHelpMan.ToString_loop ret is_optional args = Aborted w.
Proof.
  intros (l1 & a & l2 & b & l3 & -> & Ha & Hb).
  induction l1 as [ | x l1 IH]; intros ret is_optional; simpl.
  - rewrite Ha. simpl.
    destruct (RPCArg.ToString a) as [s | w]; simpl; [ | now eexists].
    apply ToString_loop_required_seen.
    apply Exists_app. right. now constructor.
  - destruct (RPCArg.m_optional x); simpl.
    + destruct (RPCArg.ToString x) as [s | w]; simpl; [apply IH | now eexists].
    + destruct is_optional; simpl; [now eexists | ].
      destruct (RPCArg.ToString x) as [s | w]; simpl; [apply IH | now eexists].
Qed.

Lemma ToString_loop_all_optional (args : list RPCArg.t) :
  Forall (fun a => RPCArg.m_optional a = true) args ->
  forall ret, RPCHelpMan.ToString_loop ret true args <> Aborted AssertNotOptional.
Proof.
  induction 1 as [ | a args Ha _ IH]; intros ret; simpl; [discriminate | ].
  rewrite Ha. simpl.
  destruct (RPCArg.ToString a) as [s | w] eqn:E; simpl; [apply IH | ].
  intros [= ->]. now apply (proj1 (RPCArg_ToString_aborts a)) in E.
Qed.

Lemma ToString_loop_well_ordered (req opt : list RPCArg.t) :
  Forall (fun a => RPCArg.m_optional a = false) req ->
  Forall (fun a => RPCArg.m_optional a = true) opt ->
  forall ret, RPCHelpMan.ToString_loop ret false (req ++ opt) <> Aborted AssertNotOptional.
Proof.
  induction 1 as [ | a req Ha _ IH]; intros Hopt ret; simpl.
  - destruct Hopt as [ | b opt Hb Hopt]; simpl; [discriminate | ].
    rewrite Hb. simpl.
    destruct (RPCArg.ToString b) as [s | w] eqn:E; simpl.
    + now apply ToString_loop_all_optional.
    + intros [= ->]. now apply (proj1 (RPCArg_ToString_aborts b)) in E.
  - rewrite Ha. simpl.
    destruct (RPCArg.ToString a) as [s | w] eqn:E; simpl; [now apply IH | ].
    intros [= ->]. now apply (proj1 (RPCArg_ToString_aborts a)) in E.
Qed.

(** The two orderings are complementary. *)
Lemma well_ordered_or_violation (args : list RPCArg.t) :
  well_ordered args \/ required_after_optional args.
Proof.
  induction args as [ | a args [(req & opt & -> & Hreq & Hopt) | Hv]].
  - left. exists [], []. repeat split; constructor.
  - destruct (RPCArg.m_optional a) eqn:Ha.
    + destruct Hreq as [ | b req Hb Hreq].
      * left. exists [], (a :: opt). repeat split; now constructor.
      * right. exists [], a, [], b, (req ++ opt). now repeat split.
    + left. exists (a :: req), opt. repeat split; [now constructor | assumption].
  - right. destruct Hv as (l1 & x & l2 & y & l3 & -> & Hx & Hy).
    exists (a :: l1), x, l2, y, l3. now repeat split.
Qed.

Lemma well_ordered_not_violation (args : list RPCArg.t) :
  well_ordered args -> ~ required_after_optional args.
Proof.
  intros (req & opt & -> & Hreq & Hopt) (l1 & a & l2 & b & l3 & E & Ha & Hb).
  revert l1 E. induction Hreq as [ | r req Hr _ IH]; intros l1 E; simpl in E.
  - subst opt. rewrite Forall_forall in Hopt.
    assert (Hin : b ∈ l1 ++ a :: l2 ++ b :: l3) by set_solver.
    specialize (Hopt b Hin). congruence.
  - destruct l1 as [ | x l1]; simpl in E; injection E as -> E.
    + congruence.
    + now apply (IH l1).
Qed.

(** [assert(false)] can only come from an argument's own rendering. *)
Lemma ToString_loop_abort_false (args : list RPCArg.t) :
  forall ret is_optional,
    RPCHelpMan.ToString_loop ret is_optional args = Aborted AssertFalse ->
    Exists (fun a => RPCArg.ToString a = Aborted AssertFalse) args.
Proof.
  induction args as [ | a args IH]; intros ret is_optional; simpl; [discriminate | ].
  destruct (RPCArg.m_optional a); simpl.
  - destruct (RPCArg.ToString a) as [s | w] eqn:E; simpl.
    + intros Hloop. right. now apply IH in Hloop.
    + intros [= ->]. now left.
  - destruct is_optional; simpl; [discriminate | ].
    destruct (RPCArg.ToString a) as [s | w] eqn:E; simpl.
    + intros Hloop. right. now apply IH in Hloop.
    + intros [= ->]. now left.
Qed.

Lemma renders_no_abort (args : list RPCArg.t) (rs : list string) :
  renders args rs ->
  ~ Exists (fun a => RPCArg.ToString a = Aborted AssertFalse) args.
Proof.
  induction 1 as [ | a s args rs Hs _ IH]; intros Hex; inversion Hex; subst.
  - congruence.
  - now apply IH.
Qed.

(** C8: rendering an RpcHelpMan whose arguments have a required one after
    an optional one aborts on an assertion (a programming-contract
    violation), which is the ordering assertion when every argument
    renders; the spec's list, "a" optional then "b" required, aborts
    whatever the types; and for arguments in positional-then-optional
    order the ordering assertion is never the one that fails. *)
Theorem RPCHelpMan_ToString_ordering (name : string) (args : list RPCArg.t) :
  (required_after_optional args ->
     exists w, RPCHelpMan.ToString (RPCHelpMan.mk name args) = Aborted w) /\
  (required_after_optional args ->
     forall rs, renders args rs ->
       RPCHelpMan.ToString (RPCHelpMan.mk name args) = Aborted AssertNotOptional) /\
  (well_ordered args ->
     RPCHelpMan.ToString (RPCHelpMan.mk name args) <> Aborted AssertNotOptional) /\
  (forall ta ia tb ib,
     args = [RPCArg.mk "a" ta ia true; RPCArg.mk "b" tb ib false] ->
     exists w, RPCHelpMan.ToString (RPCHelpMan.mk name args) = Aborted w).
Proof.
  assert (Hviol : required_after_optional args ->
            exists w, RPCHelpMan.ToString_loop (EmptyString +:+ name) false args
                      = Aborted w).
  { intros Hv. apply (ToString_loop_violation args Hv). }
  unfold RPCHelpMan.ToString. cbn [RPCHelpMan.m_name RPCHelpMan.m_args].
  split; [ | split; [ | split]].
  - intros Hv. destruct (Hviol Hv) as [w Hw]. rewrite Hw. now exists w.
  - intros Hv rs Hrs. destruct (Hviol Hv) as [w Hw]. rewrite Hw.
    destruct w; [reflexivity | ].
    apply ToString_loop_abort_false in Hw. now apply renders_no_abort in Hrs.
  - intros (req & opt & -> & Hreq & Hopt).
    destruct (RPCHelpMan.ToString_loop _ false (req ++ opt)) as [st | w] eqn:E;
      simpl; [discriminate | ].
    intros [= ->]. revert E. now apply ToString_loop_well_ordered.
  - intros ta ia tb ib ->.
    destruct Hviol as [w Hw]; [ | rewrite Hw; now exists w].
    exists [], (RPCArg.mk "a" ta ia true), [], (RPCArg.mk "b" tb ib false), [].
    now repeat split.
Qed.

Lemma RPCHelpMan_ToString_ordering_witness :
  required_after_optional
    [RPCArg.mk "a" RPCArg.NUM [] true; RPCArg.mk "b" RPCArg.STR [] false] /\
  exists w,
    RPCHelpMan.ToString
      (RPCHelpMan.mk "name"
         [RPCArg.mk "a" RPCArg.NUM [] true; RPCArg.mk "b" RPCArg.STR [] false])
    = Aborted w.
Proof.
  assert (Hv : required_after_optional
                 [RPCArg.mk "a" RPCArg.NUM [] true; RPCArg.mk "b" RPCArg.STR [] false]).
  { exists [], (RPCArg.mk "a" RPCArg.NUM [] true), [],
      (RPCArg.mk "b" RPCArg.STR [] false), [].
    repeat split; reflexivity. }
  split; [exact Hv | ].
  exact (proj1 (RPCHelpMan_ToString_ordering "name" _) Hv).
Defined.

Example a_optional_b_required_aborts :
  RPCHelpMan.ToString
    (RPCHelpMan.mk "name"
       [RPCArg.mk "a" RPCArg.NUM [] true; RPCArg.mk "b" RPCArg.STR [] false])
  = Aborted AssertNotOptional.
Proof. reflexivity. Qed.

Lemma ToString_loop_required (req : list RPCArg.t) (rs : list string) :
  renders req rs ->
  Forall (fun a => RPCArg.m_optional a = false) req ->
  forall ret rest,
    RPCHelpMan.ToString_loop ret false (req ++ rest)
    = RPCHelpMan.ToString_loop (ret +:+ spaced rs) false rest.
Proof.
  induction 1 as [ | a s req rs Hs _ IH]; intros Hreq ret rest.
  - simpl. now rewrite string_app_nil_r.
  - apply Forall_cons in Hreq as [Ha Hreq].
    simpl. rewrite Ha, Hs. simpl. rewrite (IH Hreq).
    now rewrite !string_app_assoc.
Qed.

Lemma ToString_loop_optional (opt : list RPCArg.t) (ro : list string) :
  renders opt ro ->
  Forall (fun a => RPCArg.m_optional a = true) opt ->
  forall ret,
    RPCHelpMan.ToString_loop ret true opt = Done (ret +:+ spaced ro, true).
Proof.
  induction 1 as [ | a s opt ro Hs _ IH]; intros Hopt ret.
  - simpl. now rewrite string_app_nil_r.
  - apply Forall_cons in Hopt as [Ha Hopt].
    simpl. rewrite Ha, Hs. simpl. rewrite (IH Hopt).
    now rewrite !string_app_assoc.
Qed.

Lemma RPCHelpMan_ToString_well_ordered (name : string)
    (req opt : list RPCArg.t) (rs ro : list string) :
  Forall (fun a => RPCArg.m_optional a = false) req ->
  Forall (fun a => RPCArg.m_optional a = true) opt ->
  renders req rs -> renders opt ro ->
  RPCHelpMan.ToString (RPCHelpMan.mk name (req ++ opt))
  = Done (name +:+ spaced rs +:+ optional_suffix ro +:+ newline).
Proof.
  intros Hreq Hopt Hrs Hro. unfold RPCHelpMan.ToString. simpl.
  rewrite (ToString_loop_required req rs Hrs Hreq).
  change (EmptyString +:+ name) with name.
  destruct Hro as [ | a s opt ro Hs Hro]; simpl.
  - now rewrite !string_app_assoc.
  - apply Forall_cons in Hopt as [Ha Hopt].
    rewrite Ha, Hs. simpl.
    rewrite (ToString_loop_optional opt ro Hro Hopt). simpl.
    now rewrite !string_app_assoc.
Qed.

(** C9, as stated, fails when an argument is a string: a [STR_HEX] "txid"
    is rendered between quotes. *)
Lemma RPCHelpMan_ToString_txid_quoted :
  RPCHelpMan.ToString
    (RPCHelpMan.mk "name"
       [RPCArg.mk "txid" RPCArg.STR_HEX [] false;
        RPCArg.mk "amount" RPCArg.AMOUNT [] true])
  <> Done ("name txid ( amount )" +:+ newline).
Proof. vm_compute. discriminate. Qed.

(** C9, amended: for "txid" required and "amount" optional, both of a
    type rendered as the bare name (NUM, AMOUNT or BOOL), the result is
    the command name followed by " txid ( amount )" and a newline; and
    for every list of required arguments followed by optional ones, all
    of which render, the result is the name, each required argument
    after a space, then the optional arguments between one "( " and one
    " )" (nothing when there is none), then a newline. *)
Theorem RPCHelpMan_ToString_parentheses (name : string) :
  (forall t1 i1 t2 i2,
     bare_name_type t1 = true -> bare_name_type t2 = true ->
     RPCHelpMan.ToString
       (RPCHelpMan.mk name [RPCArg.mk "txid" t1 i1 false; RPCArg.mk "amount" t2 i2 true])
     = Done (name +:+ " txid ( amount )" +:+ newline)) /\
  (forall req opt rs ro,
     Forall (fun a => RPCArg.m_optional a = false) req ->
     Forall (fun a => RPCArg.m_optional a = true) opt ->
     renders req rs -> renders opt ro ->
     RPCHelpMan.ToString (RPCHelpMan.mk name (req ++ opt))
     = Done (name +:+ spaced rs +:+ optional_suffix ro +:+ newline)).
Proof.
  split.
  - intros t1 i1 t2 i2 H1 H2.
    apply (RPCHelpMan_ToString_well_ordered name
             [RPCArg.mk "txid" t1 i1 false] [RPCArg.mk "amount" t2 i2 true]
             ["txid"] ["amount"]).
    + now repeat constructor.
    + now repeat constructor.
    + constructor; [ | constructor]. destruct t1; try discriminate H1; reflexivity.
    + constructor; [ | constructor]. destruct t2; try discriminate H2; reflexivity.
  - intros. now apply RPCHelpMan_ToString_well_ordered.
Qed.

Lemma RPCHelpMan_ToString_parentheses_witness :
  RPCHelpMan.ToString
    (RPCHelpMan.mk "name"
       [RPCArg.mk "txid" RPCArg.NUM [] false; RPCArg.mk "amount" RPCArg.AMOUNT [] true])
  = Done ("name txid ( amount )" +:+ newline).
Proof.
  exact (proj1 (RPCHelpMan_ToString_parentheses "name")
           RPCArg.NUM [] RPCArg.AMOUNT [] eq_refl eq_refl).
Defined.

(** ** Asset balances *)

Section amount_map_facts.
Context `{AssetsEnv}.

Lemma map_index_value (m : gmap N Z) (a : CAsset) :
  fst (map_index m a) = amount_of m a.
Proof. unfold map_index, amount_of. now destruct (m !! a). Qed.

Lemma with_policy_lookup (m : gmap N Z) (a : CAsset) :
  with_policy m !! a =
  if decide (a = policyAsset) then Some (amount_of m policyAsset) else m !! a.
Proof.
  unfold with_policy. case_decide as Ha.
  - subst a. apply lookup_insert_eq.
  - now apply lookup_insert_ne.
Qed.

Lemma with_policy_amount (m : gmap N Z) (a : CAsset) :
  amount_of (with_policy m) a = amount_of m a.
Proof.
  unfold amount_of at 1. rewrite with_policy_lookup.
  case_decide as Ha; [now subst a | reflexivity].
Qed.

Lemma with_policy_reported (m : gmap N Z) (a : CAsset) (v : CAmount) :
  with_policy m !! a = Some v <-> reported m a /\ v = amount_of m a.
Proof.
  rewrite with_policy_lookup. unfold reported, amount_of.
  case_decide as Ha.
  - subst a. split; [intros [= <-]; auto | intros [_ ->]; reflexivity].
  - split.
    + intros Hm. rewrite Hm. split; [left; now exists v | reflexivity].
    + intros [[[w Hw] | ?] ->]; [now rewrite Hw | contradiction].
Qed.

(** The function in terms of the map with the policy asset present. *)
Lemma AmountMapToUniv_unfold (m : gmap N Z) (strasset : string) :
  AmountMapToUniv m strasset =
  if negb g_con_elementsmode || negb (String.eqb strasset EmptyString) then
    if g_con_elementsmode then
      try! asset <- GetAssetFromString strasset;
      Return (ValueFromAmount (amount_of m asset))
    else
      Return (ValueFromAmount (amount_of m policyAsset))
  else
    Return (fold_left AmountMapToUniv_step (map_entries (with_policy m)) (VOBJ [])).
Proof.
  unfold AmountMapToUniv.
  assert (Hb : (let '(v, balance) := map_index m policyAsset in
                <[policyAsset := v + 0]> balance) = with_policy m).
  { unfold map_index, with_policy, amount_of.
    destruct (m !! policyAsset) as [v | ]; simpl.
    - now rewrite Z.add_0_r.
    - now rewrite insert_insert_eq. }
  destruct (map_index m policyAsset) as [v balance]. rewrite Hb.
  destruct (negb g_con_elementsmode || negb (String.eqb strasset EmptyString));
    [ | reflexivity].
  destruct g_con_elementsmode.
  - destruct (GetAssetFromString strasset) as [asset | e]; simpl; [ | reflexivity].
    now rewrite map_index_value, with_policy_amount.
  - now rewrite map_index_value, with_policy_amount.
Qed.

End amount_map_facts.

(** C6, as stated, fails without multi-asset mode: a non-empty filter is
    ignored there, and the policy asset's amount is returned. *)
Lemma AmountMapToUniv_single_asset_ignores_filter :
  @GetAssetFromString Sample.single_asset_env "A" = Return 5%N /\
  amount_of Sample.balance_A_policy 5%N = 7 /\
  @AmountMapToUniv Sample.single_asset_env Sample.balance_A_policy "A"
  = Return (ValueFromAmount 3) /\
  @AmountMapToUniv Sample.single_asset_env Sample.balance_A_policy "A"
  <> Return (ValueFromAmount (amount_of Sample.balance_A_policy 5%N)).
Proof.
  split; [reflexivity | ]. split; [reflexivity | ].
  split; [vm_compute; reflexivity | vm_compute; discriminate].
Qed.

(** C6, amended: without multi-asset mode [present] returns the numeric
    amount of the policy asset, whatever the filter; in multi-asset mode
    with a non-empty filter that names an asset it returns the numeric
    amount of that asset; an asset without entry reads as 0, so the empty
    map without multi-asset mode gives the policy-asset amount 0. *)
Theorem AmountMapToUniv_single_amount `{AssetsEnv} (m : gmap N Z) (strasset : string) :
  (g_con_elementsmode = false ->
     AmountMapToUniv m strasset = Return (ValueFromAmount (amount_of m policyAsset)) /\
     isNum (ValueFromAmount (amount_of m policyAsset)) = true) /\
  (g_con_elementsmode = true -> strasset <> EmptyString ->
     forall asset, GetAssetFromString strasset = Return asset ->
       AmountMapToUniv m strasset = Return (ValueFromAmount (amount_of m asset)) /\
       isNum (ValueFromAmount (amount_of m asset)) = true) /\
  (g_con_elementsmode = false ->
     AmountMapToUniv ∅ EmptyString = Return (ValueFromAmount 0)).
Proof.
  split; [ | split].
  - intros Hmode. rewrite AmountMapToUniv_unfold, Hmode. split; reflexivity.
  - intros Hmode Hne asset Hasset. rewrite AmountMapToUniv_unfold, Hmode, Hasset.
    apply String.eqb_neq in Hne. rewrite Hne. split; reflexivity.
  - intros Hmode. rewrite AmountMapToUniv_unfold, Hmode. reflexivity.
Qed.

Lemma AmountMapToUniv_single_amount_witness :
  @g_con_elementsmode Sample.single_asset_env = false /\
  @AmountMapToUniv Sample.single_asset_env ∅ EmptyString = Return (ValueFromAmount 0).
Proof.
  split; [reflexivity | ].
  exact (proj2 (proj2 (@AmountMapToUniv_single_amount Sample.single_asset_env ∅ EmptyString))
           eq_refl).
Defined.

(** C10: in multi-asset mode, a non-empty filter naming an asset that has
    no entry in the map gives the numeric amount 0, not an error. *)
Theorem AmountMapToUniv_absent_asset_zero `{AssetsEnv}
    (m : gmap N Z) (strasset : string) (asset : CAsset) :
  g_con_elementsmode = true ->
  strasset <> EmptyString ->
  GetAssetFromString strasset = Return asset ->
  m !! asset = None ->
  AmountMapToUniv m strasset = Return (ValueFromAmount 0).
Proof.
  intros Hmode Hne Hasset Habsent.
  rewrite AmountMapToUniv_unfold, Hmode, Hasset.
  apply String.eqb_neq in Hne. rewrite Hne. simpl.
  unfold amount_of. now rewrite Habsent.
Qed.

Lemma AmountMapToUniv_absent_asset_zero_witness :
  @g_con_elementsmode Sample.elements_env = true /\
  "A" <> EmptyString /\
  @GetAssetFromString Sample.elements_env "A" = Return 5%N /\
  (<[1%N := 3]> ∅ : gmap N Z) !! 5%N = None /\
  @AmountMapToUniv Sample.elements_env (<[1%N := 3]> ∅) "A" = Return (ValueFromAmount 0).
Proof.
  assert (Hne : "A" <> EmptyString) by discriminate.
  assert (Habsent : (<[1%N := 3]> ∅ : gmap N Z) !! 5%N = None) by reflexivity.
  split; [reflexivity | ]. split; [exact Hne | ]. split; [reflexivity | ].
  split; [exact Habsent | ].
  exact (@AmountMapToUniv_absent_asset_zero Sample.elements_env _ "A" 5%N
           eq_refl Hne eq_refl Habsent).
Defined.

(** *** Objects as maps from keys *)

Lemma pushKV_cons (k0 : string) (v0 : UniValue) (rest : list (string * UniValue))
    (k : string) (v : UniValue) :
  pushKV (VOBJ ((k0, v0) :: rest)) k v =
  if String.eqb k0 k then VOBJ ((k, v) :: rest)
  else VOBJ ((k0, v0) :: entries (pushKV (VOBJ rest) k v)).
Proof.
  unfold pushKV. simpl. destruct (String.eqb k0 k); [reflexivity | ].
  destruct (findKey rest k); reflexivity.
Qed.

Lemma pushKV_is_obj (kvs : list (string * UniValue)) (k : string) (v : UniValue) :
  pushKV (VOBJ kvs) k v = VOBJ (entries (pushKV (VOBJ kvs) k v)).
Proof. unfold pushKV. now destruct (findKey kvs k). Qed.

Lemma lookupKV_pushKV (kvs : list (string * UniValue)) (k : string) (v : UniValue)
    (k' : string) :
  lookupKV (entries (pushKV (VOBJ kvs) k v)) k' =
  if String.eqb k k' then Some v else lookupKV kvs k'.
Proof.
  induction kvs as [ | [k0 v0] rest IH].
  - reflexivity.
  - rewrite pushKV_cons. destruct (String.eqb k0 k) eqn:E0; cbn [entries lookupKV].
    + apply String.eqb_eq in E0. subst k0.
      now destruct (String.eqb k k').
    + rewrite IH. destruct (String.eqb k0 k') eqn:E1; [ | reflexivity].
      apply String.eqb_eq in E1. subst k'.
      rewrite String.eqb_sym, E0. reflexivity.
Qed.

Lemma elem_of_pushKV (kvs : list (string * UniValue)) (k : string) (v : UniValue)
    (e : string * UniValue) :
  e ∈ entries (pushKV (VOBJ kvs) k v) -> e ∈ kvs \/ e = (k, v).
Proof.
  induction kvs as [ | [k0 v0] rest IH].
  - cbn. intros He%list_elem_of_singleton. now right.
  - rewrite pushKV_cons. destruct (String.eqb k0 k); cbn [entries].
    + rewrite !elem_of_cons. intuition.
    + rewrite !elem_of_cons. intuition.
Qed.

Section report.
Context `{AssetsEnv}.

Lemma AmountMapToUniv_step_obj (kvs : list (string * UniValue)) (a : CAsset) (v : CAmount) :
  AmountMapToUniv_step (VOBJ kvs) (a, v) =
  VOBJ (if IsNull a then kvs
        else entries (pushKV (VOBJ kvs) (asset_label a) (ValueFromAmount v))).
Proof.
  unfold AmountMapToUniv_step. cbn [fst snd].
  destruct (IsNull a); [reflexivity | apply pushKV_is_obj].
Qed.

Lemma report_cons (a : CAsset) (v : CAmount) (L : list (CAsset * CAmount))
    (kvs : list (string * UniValue)) :
  report ((a, v) :: L) kvs =
  if IsNull a then report L kvs
  else report L (entries (pushKV (VOBJ kvs) (asset_label a) (ValueFromAmount v))).
Proof.
  unfold report. cbn [fold_left]. rewrite AmountMapToUniv_step_obj.
  now destruct (IsNull a).
Qed.

Lemma report_is_obj (L : list (CAsset * CAmount)) (kvs : list (string * UniValue)) :
  fold_left AmountMapToUniv_step L (VOBJ kvs) = VOBJ (report L kvs).
Proof.
  unfold report. revert kvs. induction L as [ | [a v] L IH]; intros kvs.
  - reflexivity.
  - cbn [fold_left]. rewrite AmountMapToUniv_step_obj. apply IH.
Qed.

(** A key stays a key. *)
Lemma report_key_kept (L : list (CAsset * CAmount)) (kvs : list (string * UniValue))
    (k : string) :
  is_Some (lookupKV kvs k) -> is_Some (lookupKV (report L kvs) k).
Proof.
  revert kvs. induction L as [ | [a v] L IH]; intros kvs Hk; [exact Hk | ].
  rewrite report_cons. destruct (IsNull a); [now apply IH | ].
  apply IH. rewrite lookupKV_pushKV. now destruct (String.eqb _ k).
Qed.

(** Every asset that is not null gets its label as a key. *)
Lemma report_key_present (L : list (CAsset * CAmount)) (kvs : list (string * UniValue))
    (a : CAsset) (v : CAmount) :
  (a, v) ∈ L -> IsNull a = false ->
  is_Some (lookupKV (report L kvs) (asset_label a)).
Proof.
  intros Hin Hnn. revert kvs.
  induction L as [ | [a0 v0] L IH]; intros kvs; [inversion Hin | ].
  rewrite report_cons. apply elem_of_cons in Hin as [[= <- <-] | Hin].
  - rewrite Hnn. apply report_key_kept.
    rewrite lookupKV_pushKV, String.eqb_refl. now eexists.
  - destruct (IsNull a0); now apply IH.
Qed.

(** Every entry is the label and amount of an asset that is not null. *)
Lemma report_provenance (L : list (CAsset * CAmount)) (kvs : list (string * UniValue))
    (e : string * UniValue) :
  e ∈ report L kvs ->
  e ∈ kvs \/
  exists a v, (a, v) ∈ L /\ IsNull a = false /\ e = (asset_label a, ValueFromAmount v).
Proof.
  revert kvs. induction L as [ | [a v] L IH]; intros kvs He; [now left | ].
  rewrite report_cons in He. destruct (IsNull a) eqn:Hnn.
  - destruct (IH _ He) as [? | (a' & v' & Hin & ? & ?)]; [now left | ].
    right. exists a', v'. split; [now apply elem_of_cons; right | auto].
  - destruct (IH _ He) as [He' | (a' & v' & Hin & ? & ?)].
    + apply elem_of_pushKV in He' as [? | ->]; [now left | ].
      right. exists a, v. split; [now apply elem_of_cons; left | auto].
    + right. exists a', v'. split; [now apply elem_of_cons; right | auto].
Qed.

(** A key keeps its amount when every later asset with that label has
    the same amount. *)
Lemma report_amount_kept (L : list (CAsset * CAmount)) (kvs : list (string * UniValue))
    (k : string) (v : CAmount) :
  (forall a' v', (a', v') ∈ L -> IsNull a' = false -> asset_label a' = k -> v' = v) ->
  lookupKV kvs k = Some (ValueFromAmount v) ->
  lookupKV (report L kvs) k = Some (ValueFromAmount v).
Proof.
  revert kvs. induction L as [ | [a0 v0] L IH]; intros kvs Hsame Hk; [exact Hk | ].
  assert (Hsame' : forall a' v', (a', v') ∈ L -> IsNull a' = false ->
                                 asset_label a' = k -> v' = v).
  { intros a' v' Hin. apply Hsame. now apply elem_of_cons; right. }
  rewrite report_cons. destruct (IsNull a0) eqn:Hnn; [now apply IH | ].
  apply IH; [exact Hsame' | ].
  rewrite lookupKV_pushKV. destruct (String.eqb _ k) eqn:E; [ | exact Hk].
  apply String.eqb_eq in E.
  now rewrite (Hsame a0 v0 ltac:(apply elem_of_cons; now left) Hnn E).
Qed.

Lemma report_amount (L : list (CAsset * CAmount)) (kvs : list (string * UniValue))
    (a : CAsset) (v : CAmount) :
  (forall a' v', (a', v') ∈ L -> IsNull a' = false ->
                 asset_label a' = asset_label a -> v' = v) ->
  (a, v) ∈ L -> IsNull a = false ->
  lookupKV (report L kvs) (asset_label a) = Some (ValueFromAmount v).
Proof.
  intros Hsame Hin Hnn. revert kvs Hsame.
  induction L as [ | [a0 v0] L IH]; intros kvs Hsame; [inversion Hin | ].
  assert (Hsame' : forall a' v', (a', v') ∈ L -> IsNull a' = false ->
                                 asset_label a' = asset_label a -> v' = v).
  { intros a' v' Hin'. apply Hsame. now apply elem_of_cons; right. }
  rewrite report_cons. apply elem_of_cons in Hin as [[= <- <-] | Hin].
  - rewrite Hnn. apply report_amount_kept; [exact Hsame' | ].
    now rewrite lookupKV_pushKV, String.eqb_refl.
  - destruct (IsNull a0); now apply IH.
Qed.

Lemma elem_of_map_entries (m : gmap N Z) (a : CAsset) (v : CAmount) :
  (a, v) ∈ map_entries m <-> m !! a = Some v.
Proof.
  unfold map_entries. rewrite merge_sort_Permutation.
  apply elem_of_map_to_list.
Qed.

End report.

(** C7: in multi-asset mode with an empty filter, [present] returns an
    object from labels to amounts: every asset of the map that is not the
    null asset, and the policy asset (which is not the null asset), has
    its label as a key; every entry is the label and the amount of such
    an asset, the policy asset's amount being 0 when the map has no entry
    for it, so the null asset contributes nothing; the label is the
    directory's when it has one and the hex identifier otherwise; and
    where labels tell the reported assets apart, each label carries its
    asset's amount. *)
Theorem AmountMapToUniv_all_assets `{AssetsEnv} (m : gmap N Z) :
  g_con_elementsmode = true ->
  IsNull policyAsset = false ->
  exists kvs,
    AmountMapToUniv m EmptyString = Return (VOBJ kvs) /\
    (forall a, reported m a -> IsNull a = false ->
               is_Some (lookupKV kvs (asset_label a))) /\
    is_Some (lookupKV kvs (asset_label policyAsset)) /\
    (forall k w, (k, w) ∈ kvs ->
       exists a, reported m a /\ IsNull a = false /\
                 k = asset_label a /\ w = ValueFromAmount (amount_of m a)) /\
    (forall a, asset_label a =
               if String.eqb (GetLabel a) EmptyString then GetHex a else GetLabel a) /\
    ((forall a b, reported m a -> reported m b -> IsNull a = false -> IsNull b = false ->
                  asset_label a = asset_label b -> a = b) ->
     forall a, reported m a -> IsNull a = false ->
               lookupKV kvs (asset_label a) = Some (ValueFromAmount (amount_of m a))).
Proof.
  intros Hmode Hpolicy.
  exists (report (map_entries (with_policy m)) []).
  assert (Hkey : forall a, reported m a -> IsNull a = false ->
             is_Some (lookupKV (report (map_entries (with_policy m)) []) (asset_label a))).
  { intros a Ha Hnn. apply (report_key_present _ _ a (amount_of m a)); [ | exact Hnn].
    apply elem_of_map_entries, with_policy_reported. now split. }
  split; [ | split; [exact Hkey | split; [ | split; [ | split]]]].
  - rewrite AmountMapToUniv_unfold, Hmode. cbn [negb orb String.eqb].
    now rewrite report_is_obj.
  - apply Hkey; [now right | exact Hpolicy].
  - intros k w Hin. apply report_provenance in Hin as [Hin | (a & v & Hin & Hnn & [= -> ->])].
    + inversion Hin.
    + apply elem_of_map_entries, with_policy_reported in Hin as [Ha ->].
      now exists a.
  - reflexivity.
  - intros Hinj a Ha Hnn. apply report_amount; [ | | exact Hnn].
    + intros a' v' Hin' Hnn' Hlabel.
      apply elem_of_map_entries, with_policy_reported in Hin' as [Ha' ->].
      now rewrite (Hinj a' a Ha' Ha Hnn' Hnn Hlabel).
    + apply elem_of_map_entries, with_policy_reported. now split.
Qed.

Lemma AmountMapToUniv_all_assets_witness :
  @g_con_elementsmode Sample.elements_env = true /\
  IsNull (@policyAsset Sample.elements_env) = false /\
  exists kvs,
    @AmountMapToUniv Sample.elements_env Sample.balance_with_null EmptyString
    = Return (VOBJ kvs) /\
    is_Some (lookupKV kvs (@asset_label Sample.elements_env (@policyAsset Sample.elements_env))).
Proof.
  split; [reflexivity | ]. split; [reflexivity | ].
  destruct (@AmountMapToUniv_all_assets Sample.elements_env Sample.balance_with_null
              eq_refl eq_refl) as (kvs & Hres & _ & Hpol & _).
  exists kvs. split; [exact Hres | exact Hpol].
Defined.

(** The spec's example: asset A and the policy asset are reported, the
    null asset is not. *)
Example present_A_and_policy :
  @AmountMapToUniv Sample.elements_env Sample.balance_with_null EmptyString
  = Return (VOBJ [("bitcoin", ValueFromAmount 3); ("0x5", ValueFromAmount 5)]).
Proof. vm_compute. reflexivity. Qed.

(** * Further properties *)

(** ** HexToPubKey *)

(** X1: [HexToPubKey] returns a key exactly when the string is hex and
    the key built from its bytes is fully valid; the key returned is that
    key, so every key it returns is fully valid. *)
Theorem HexToPubKey_returns `{KeyValidator} `{KeyParser} (hex_in : string) (k : CPubKey) :
  HexToPubKey hex_in = Return k <->
  IsHex hex_in = true /\ k = CPubKey_of_vch (ParseHex hex_in) /\ IsFullyValid k = true.
Proof.
  unfold HexToPubKey.
  destruct (IsHex hex_in) eqn:Ehex; simpl.
  - destruct (IsFullyValid (CPubKey_of_vch (ParseHex hex_in))) eqn:Evalid; simpl.
    + split.
      * intros [= <-]. auto.
      * intros (_ & -> & _). reflexivity.
    + split; [discriminate | ].
      intros (_ & -> & Hk). congruence.
  - split; [discriminate | ]. intros (? & _). discriminate.
Qed.

(** X2: [HexToPubKey] throws exactly when the string is not hex or the
    key built from it is not fully valid, in both cases with the code
    RPC_INVALID_ADDRESS_OR_KEY and the message "Invalid public key: "
    followed by the string as given. *)
Theorem HexToPubKey_throws `{KeyValidator} `{KeyParser} (hex_in : string) (e : JSONRPCError) :
  HexToPubKey hex_in = Throw e <->
  (IsHex hex_in = false \/ IsFullyValid (CPubKey_of_vch (ParseHex hex_in)) = false) /\
  e = mkError RPC_INVALID_ADDRESS_OR_KEY ("Invalid public key: " +:+ hex_in).
Proof.
  unfold HexToPubKey.
  destruct (IsHex hex_in) eqn:Ehex; simpl.
  - destruct (IsFullyValid (CPubKey_of_vch (ParseHex hex_in))) eqn:Evalid; simpl.
    + split; [discriminate | ]. intros ([? | ?] & _); discriminate.
    + split; [intros [= <-]; auto | intros (_ & ->); reflexivity].
  - split; [intros [= <-]; auto | intros (_ & ->); reflexivity].
Qed.

Example HexToPubKey_compressed_key :
  @HexToPubKey Sample.validator SampleKeys.parser (HexStr Sample.key33)
  = Return Sample.key33.
Proof. vm_compute. reflexivity. Qed.

Example HexToPubKey_not_hex :
  @HexToPubKey Sample.validator SampleKeys.parser "02zz"
  = Throw (mkError RPC_INVALID_ADDRESS_OR_KEY "Invalid public key: 02zz").
Proof. vm_compute. reflexivity. Qed.

Example HexToPubKey_short_key :
  @HexToPubKey Sample.validator SampleKeys.parser "0211"
  = Throw (mkError RPC_INVALID_ADDRESS_OR_KEY "Invalid public key: 0211").
Proof. vm_compute. reflexivity. Qed.

(** ** AddrToPubKey *)

(** X3: [AddrToPubKey] returns a key exactly when the address decodes to
    a valid destination, the destination refers to a key id that is not
    null, the store has a public key for that id, and this key is fully
    valid; it returns that stored key. *)
Theorem AddrToPubKey_returns `{KeyValidator} `{AddressCodec} `{KeyStoreOps}
    (keystore : CKeyStore) (addr_in : string) (k : CPubKey) :
  AddrToPubKey keystore addr_in = Return k <->
  IsValidDestination (DecodeDestination addr_in) = true /\
  CKeyID_IsNull (GetKeyForDestination keystore (DecodeDestination addr_in)) = false /\
  GetPubKey keystore (GetKeyForDestination keystore (DecodeDestination addr_in)) = Some k /\
  IsFullyValid k = true.
Proof.
  unfold AddrToPubKey.
  destruct (IsValidDestination _); simpl;
    [ | split; [discriminate | intros (? & _); discriminate]].
  destruct (CKeyID_IsNull _); simpl;
    [split; [discriminate | intros (_ & ? & _); discriminate] | ].
  destruct (GetPubKey _ _) as [pk | ];
    [ | split; [discriminate | intros (_ & _ & ? & _); discriminate]].
  destruct (IsFullyValid pk) eqn:Evalid; simpl.
  - split; [intros [= <-]; auto | intros (_ & _ & [= <-] & _); reflexivity].
  - split; [discriminate | intros (_ & _ & [= <-] & ?); congruence].
Qed.

(** X4: [AddrToPubKey] throws RPC_INTERNAL_ERROR exactly when the address
    leads to a stored public key that is not fully valid; every other
    failure (invalid address, no key id, no public key in the store) is
    RPC_INVALID_ADDRESS_OR_KEY with a message that cites the address. *)
Theorem AddrToPubKey_throws `{KeyValidator} `{AddressCodec} `{KeyStoreOps}
    (keystore : CKeyStore) (addr_in : string) (e : JSONRPCError) :
  AddrToPubKey keystore addr_in = Throw e ->
  (code e = RPC_INTERNAL_ERROR /\
   IsValidDestination (DecodeDestination addr_in) = true /\
   CKeyID_IsNull (GetKeyForDestination keystore (DecodeDestination addr_in)) = false /\
   exists pk,
     GetPubKey keystore (GetKeyForDestination keystore (DecodeDestination addr_in)) = Some pk /\
     IsFullyValid pk = false)
  \/
  (code e = RPC_INVALID_ADDRESS_OR_KEY /\
   Contains addr_in (message e) /\
   (IsValidDestination (DecodeDestination addr_in) = false \/
    CKeyID_IsNull (GetKeyForDestination keystore (DecodeDestination addr_in)) = true \/
    GetPubKey keystore (GetKeyForDestination keystore (DecodeDestination addr_in)) = None)).
Proof.
  unfold AddrToPubKey.
  destruct (IsValidDestination _) eqn:Edest; simpl.
  2: { intros [= <-]. right. simpl. split; [reflexivity | split; [ | auto]].
       exists "Invalid address: ", EmptyString. now rewrite string_app_nil_r. }
  destruct (CKeyID_IsNull _) eqn:Enull; simpl.
  { intros [= <-]. right. simpl. split; [reflexivity | split; [ | auto]].
    exists EmptyString, " does not refer to a key". reflexivity. }
  destruct (GetPubKey _ _) as [pk | ] eqn:Epk.
  2: { intros [= <-]. right. simpl. split; [reflexivity | split; [ | auto]].
       exists "no full public key for address ", EmptyString.
       now rewrite string_app_nil_r. }
  destruct (IsFullyValid pk) eqn:Evalid; simpl; [discriminate | ].
  intros [= <-]. left. simpl. repeat split; try reflexivity. now exists pk.
Qed.

Lemma AddrToPubKey_throws_witness :
  exists e,
    @AddrToPubKey Sample.validator Sample.codec SampleKeys.store_ops SampleKeys.store
      (Sample.encode (DPKHash (mkPKHash (repeat xcd 20) []))) = Throw e /\
    code e = RPC_INTERNAL_ERROR.
Proof.
  eexists. split; [vm_compute; reflexivity | ].
  destruct (@AddrToPubKey_throws Sample.validator Sample.codec SampleKeys.store_ops
              SampleKeys.store (Sample.encode (DPKHash (mkPKHash (repeat xcd 20) []))) _
              eq_refl) as [(Hcode & _) | (Hcode & _)].
  - exact Hcode.
  - discriminate Hcode.
Defined.

Example AddrToPubKey_known_address :
  @AddrToPubKey Sample.validator Sample.codec SampleKeys.store_ops SampleKeys.store
    (Sample.encode (DPKHash (mkPKHash Sample.hash20 []))) = Return Sample.key33.
Proof. vm_compute. reflexivity. Qed.

Example AddrToPubKey_script_address :
  exists msg,
    @AddrToPubKey Sample.validator Sample.codec SampleKeys.store_ops SampleKeys.store
      (Sample.encode (DScriptHash (mkScriptHash Sample.hash20 [])))
    = Throw (mkError RPC_INVALID_ADDRESS_OR_KEY msg).
Proof. eexists. vm_compute. reflexivity. Qed.

(** ** Rendering one argument *)

Lemma arr_loop_closed (f : RPCArg.t -> run string) (l : list RPCArg.t) (rs : list string) :
  Forall2 (fun a s => f a = Done s) l rs ->
  forall res, RPCArg.arr_loop f res l = Done (res +:+ each_comma rs).
Proof.
  induction 1 as [ | a s l rs Hs _ IH]; intros res; simpl.
  - now rewrite string_app_nil_r.
  - rewrite Hs. simpl. rewrite IH. now rewrite !string_app_assoc.
Qed.

Lemma obj_loop_closed (f : RPCArg.t -> run string) (l : list RPCArg.t) (rs : list string) :
  Forall2 (fun a s => f a = Done s) l rs ->
  forall res, RPCArg.obj_loop f res l = Done (res +:+ comma_separated rs).
Proof.
  induction 1 as [ | a s l rs Hs Hrest IH]; intros res; simpl.
  - now rewrite string_app_nil_r.
  - rewrite Hs. simpl. destruct Hrest as [ | b t l rs Ht Hrest].
    + reflexivity.
    + rewrite IH. now rewrite !string_app_assoc.
Qed.

Lemma loop_done_iff (loop : (RPCArg.t -> run string) -> string -> list RPCArg.t -> run string)
    (f : RPCArg.t -> run string) (g : RPCArg.t -> bool) (l : list RPCArg.t) :
  (forall rs res, Forall2 (fun a s => f a = Done s) l rs -> exists s, loop f res l = Done s) ->
  (forall res s, loop f res l = Done s -> exists rs, Forall2 (fun a s => f a = Done s) l rs) ->
  Forall (fun a => (exists s, f a = Done s) <-> g a = true) l ->
  forall res, (exists s, loop f res l = Done s) <-> forallb g l = true.
Proof.
  intros Hclosed Hdone Hall res. rewrite forallb_forall. split.
  - intros [s Hs]. destruct (Hdone _ _ Hs) as [rs Hrs].
    intros a Hin. rewrite Forall_forall in Hall.
    apply (Hall a); [now apply list_elem_of_In | ].
    clear -Hrs Hin. induction Hrs as [ | b t l rs Ht _ IH]; [destruct Hin | ].
    destruct Hin as [-> | Hin]; [now exists t | now apply IH].
  - intros Hg.
    assert (Hrs : exists rs, Forall2 (fun a s => f a = Done s) l rs).
    { clear -Hall Hg. induction Hall as [ | a l Ha _ IH]; [now exists [] | ].
      destruct (proj2 Ha (Hg a (or_introl eq_refl))) as [s Hs].
      destruct IH as [rs Hrs]; [intros b Hb; apply Hg; now right | ].
      exists (s :: rs). now constructor. }
    destruct Hrs as [rs Hrs]. now apply (Hclosed rs).
Qed.

Lemma arr_loop_done (f : RPCArg.t -> run string) (l : list RPCArg.t) :
  forall res s, RPCArg.arr_loop f res l = Done s ->
                exists rs, Forall2 (fun a s => f a = Done s) l rs.
Proof.
  induction l as [ | a l IH]; intros res s; simpl.
  - intros _. now exists [].
  - destruct (f a) as [t | w] eqn:E; simpl; [ | discriminate].
    intros Hs. destruct (IH _ _ Hs) as [rs Hrs]. exists (t :: rs). now constructor.
Qed.

Lemma obj_loop_done (f : RPCArg.t -> run string) (l : list RPCArg.t) :
  forall res s, RPCArg.obj_loop f res l = Done s ->
                exists rs, Forall2 (fun a s => f a = Done s) l rs.
Proof.
  induction l as [ | a l IH]; intros res s; simpl.
  - intros _. now exists [].
  - destruct (f a) as [t | w] eqn:E; simpl; [ | discriminate].
    intros Hs. destruct (IH _ _ Hs) as [rs Hrs]. exists (t :: rs). now constructor.
Qed.

Lemma arr_loop_done_iff (f : RPCArg.t -> run string) (g : RPCArg.t -> bool)
    (l : list RPCArg.t) :
  Forall (fun a => (exists s, f a = Done s) <-> g a = true) l ->
  forall res, (exists s, RPCArg.arr_loop f res l = Done s) <-> forallb g l = true.
Proof.
  apply (loop_done_iff RPCArg.arr_loop).
  - intros rs res Hrs. eexists. exact (arr_loop_closed _ _ _ Hrs res).
  - apply arr_loop_done.
Qed.

Lemma obj_loop_done_iff (f : RPCArg.t -> run string) (g : RPCArg.t -> bool)
    (l : list RPCArg.t) :
  Forall (fun a => (exists s, f a = Done s) <-> g a = true) l ->
  forall res, (exists s, RPCArg.obj_loop f res l = Done s) <-> forallb g l = true.
Proof.
  apply (loop_done_iff RPCArg.obj_loop).
  - intros rs res Hrs. eexists. exact (obj_loop_closed _ _ _ Hrs res).
  - apply obj_loop_done.
Qed.

Lemma run_bind_done_iff {A B} (c : run A) (k : A -> B) :
  (exists s, (do! x <- c; Done (k x)) = Done s) <-> (exists a, c = Done a).
Proof.
  destruct c as [a | w]; simpl; split; intros [s Hs]; try discriminate; eauto.
Qed.

(** X5: an argument renders, rather than aborting, exactly when no object
    inside it, at any depth, has an object as one of its entries; as an
    entry of an object it renders exactly when, moreover, it is not an
    object itself. *)
Theorem RPCArg_ToString_renderable (a : RPCArg.t) :
  ((exists s, RPCArg.ToString a = Done s) <-> renderable a = true) /\
  ((exists s, RPCArg.ToStringObj a = Done s) <-> renderable_entry a = true).
Proof.
  induction a as [name ty inner optional IH] using RPCArg_nested_ind.
  assert (IH1 : Forall (fun a => (exists s, RPCArg.ToString a = Done s)
                                 <-> renderable a = true) inner)
    by (eapply Forall_impl; [exact IH | now intros ? []]).
  assert (IH2 : Forall (fun a => (exists s, RPCArg.ToStringObj a = Done s)
                                 <-> renderable_entry a = true) inner)
    by (eapply Forall_impl; [exact IH | now intros ? []]).
  split; destruct ty; cbn [RPCArg.ToString RPCArg.ToStringObj renderable renderable_entry];
    try (split; [reflexivity | intros _; eexists; reflexivity]);
    try (split; [intros [s Hs]; discriminate Hs | discriminate]).
  - rewrite run_bind_done_iff. now apply arr_loop_done_iff.
  - rewrite <- (obj_loop_done_iff _ _ _ IH2 EmptyString).
    destruct (RPCArg.obj_loop _ _ _); simpl; split; intros [s Hs];
      try discriminate; eauto.
  - rewrite <- (obj_loop_done_iff _ _ _ IH2 EmptyString).
    destruct (RPCArg.obj_loop _ _ _); simpl; split; intros [s Hs];
      try discriminate; eauto.
  - rewrite run_bind_done_iff. now apply arr_loop_done_iff.
Qed.

(** X6: an array argument whose inner arguments render as [rs] renders
    as "[", each inner rendering followed by a comma, and "...]"; with no
    inner argument this is "[...]". *)
Theorem RPCArg_ToString_ARR (name : string) (inner : list RPCArg.t) (optional : bool)
    (rs : list string) :
  renders inner rs ->
  RPCArg.ToString (RPCArg.mk name RPCArg.ARR inner optional)
  = Done ("[" +:+ each_comma rs +:+ "...]").
Proof.
  intros Hrs. cbn [RPCArg.ToString].
  rewrite (arr_loop_closed _ _ _ Hrs). reflexivity.
Qed.

Lemma RPCArg_ToString_ARR_witness :
  renders [RPCArg.mk "a" RPCArg.STR [] false; RPCArg.mk "n" RPCArg.NUM [] false]
    [dquote +:+ "a" +:+ dquote; "n"] /\
  RPCArg.ToString
    (RPCArg.mk "keys" RPCArg.ARR
       [RPCArg.mk "a" RPCArg.STR [] false; RPCArg.mk "n" RPCArg.NUM [] false] false)
  = Done ("[" +:+ dquote +:+ "a" +:+ dquote +:+ ",n,...]").
Proof.
  assert (Hrs : renders
                  [RPCArg.mk "a" RPCArg.STR [] false; RPCArg.mk "n" RPCArg.NUM [] false]
                  [dquote +:+ "a" +:+ dquote; "n"])
    by (repeat constructor).
  split; [exact Hrs | ].
  exact (RPCArg_ToString_ARR "keys" _ false _ Hrs).
Defined.

(** X7: an object argument whose inner arguments render as the entries
    [es] renders as the entries separated by commas between "{" and "}",
    and an object with user keys as the same followed by ",..." before
    the "}"; an entry that is itself an object makes both abort. *)
Theorem RPCArg_ToString_OBJ (name : string) (inner : list RPCArg.t) (optional : bool) :
  (forall es, renders_entries inner es ->
     RPCArg.ToString (RPCArg.mk name RPCArg.OBJ inner optional)
     = Done ("{" +:+ comma_separated es +:+ "}") /\
     RPCArg.ToString (RPCArg.mk name RPCArg.OBJ_USER_KEYS inner optional)
     = Done ("{" +:+ comma_separated es +:+ ",...}")) /\
  (Exists (fun a => RPCArg.m_type a = RPCArg.OBJ \/ RPCArg.m_type a = RPCArg.OBJ_USER_KEYS)
     inner ->
   (exists w, RPCArg.ToString (RPCArg.mk name RPCArg.OBJ inner optional) = Aborted w) /\
   (exists w, RPCArg.ToString (RPCArg.mk name RPCArg.OBJ_USER_KEYS inner optional)
              = Aborted w)).
Proof.
  split.
  - intros es Hes. cbn [RPCArg.ToString].
    rewrite (obj_loop_closed _ _ _ Hes). split; reflexivity.
  - intros Hex.
    assert (Hloop : forall res, exists w,
               RPCArg.obj_loop RPCArg.ToStringObj res inner = Aborted w).
    { induction Hex as [a l Ha | a l _ IH]; intros res; simpl.
      - destruct a as [n ty i o]. simpl in Ha.
        destruct Ha as [-> | ->]; simpl; now eexists.
      - destruct (RPCArg.ToStringObj a); simpl; [apply IH | now eexists]. }
    cbn [RPCArg.ToString]. destruct (Hloop EmptyString) as [w Hw]. rewrite Hw.
    split; now exists w.
Qed.

(** X8: what [ToStringObj] returns starts with the argument's name
    between quotes and a colon. *)
Theorem RPCArg_ToStringObj_prefix (a : RPCArg.t) (s : string) :
  RPCArg.ToStringObj a = Done s ->
  exists body, s = dquote +:+ RPCArg.m_name a +:+ dquote +:+ ":" +:+ body.
Proof.
  destruct a as [name ty inner optional].
  destruct ty; cbn [RPCArg.ToStringObj RPCArg.m_name]; try discriminate;
    try (intros [= <-]; eexists; rewrite !string_app_assoc; reflexivity).
  destruct (RPCArg.arr_loop _ _ _) as [r | w] eqn:E; simpl; [ | discriminate].
  intros [= <-]. destruct (arr_loop_done _ _ _ _ E) as [rs Hrs].
  rewrite (arr_loop_closed _ _ _ Hrs) in E. injection E as <-.
  eexists. rewrite !string_app_assoc. reflexivity.
Qed.

Lemma RPCArg_ToStringObj_prefix_witness :
  RPCArg.ToStringObj (RPCArg.mk "fee" RPCArg.AMOUNT [] false)
  = Done (dquote +:+ "fee" +:+ dquote +:+ ":amount") /\
  exists body, dquote +:+ "fee" +:+ dquote +:+ ":amount"
               = dquote +:+ "fee" +:+ dquote +:+ ":" +:+ body.
Proof.
  split; [reflexivity | ].
  exact (RPCArg_ToStringObj_prefix (RPCArg.mk "fee" RPCArg.AMOUNT [] false) _ eq_refl).
Defined.

(** ** Rendering the argument list *)

Lemma ToString_loop_done_renders (args : list RPCArg.t) :
  forall ret is_optional st,
    RPCHelpMan.ToString_loop ret is_optional args = Done st ->
    exists rs, renders args rs.
Proof.
  unfold renders. induction args as [ | a args IH]; intros ret is_optional st; simpl.
  - intros _. exists []. constructor.
  - destruct (RPCArg.m_optional a); simpl.
    + destruct (RPCArg.ToString a) as [s | w] eqn:E; simpl; [ | discriminate].
      intros Hloop. destruct (IH _ _ _ Hloop) as [rs Hrs].
      exists (s :: rs). now constructor.
    + destruct is_optional; simpl; [discriminate | ].
      destruct (RPCArg.ToString a) as [s | w] eqn:E; simpl; [ | discriminate].
      intros Hloop. destruct (IH _ _ _ Hloop) as [rs Hrs].
      exists (s :: rs). now constructor.
Qed.

Lemma RPCHelpMan_ToString_done_inv (name : string) (args : list RPCArg.t) (s : string) :
  RPCHelpMan.ToString (RPCHelpMan.mk name args) = Done s ->
  exists req opt rs ro,
    args = req ++ opt /\
    Forall (fun a => RPCArg.m_optional a = false) req /\
    Forall (fun a => RPCArg.m_optional a = true) opt /\
    renders req rs /\ renders opt ro /\
    s = name +:+ spaced rs +:+ optional_suffix ro +:+ newline.
Proof.
  intros Hs.
  destruct (well_ordered_or_violation args) as [(req & opt & -> & Hreq & Hopt) | Hv].
  - assert (Hrs : exists rs, renders (req ++ opt) rs).
    { unfold RPCHelpMan.ToString in Hs. cbn [RPCHelpMan.m_name RPCHelpMan.m_args] in Hs.
      destruct (RPCHelpMan.ToString_loop _ false (req ++ opt)) as [st | w] eqn:E;
        [ | discriminate Hs].
      now apply ToString_loop_done_renders in E. }
    destruct Hrs as [rs Hrs].
    apply Forall2_app_inv_l in Hrs as (rs1 & rs2 & Hrs1 & Hrs2 & ->).
    exists req, opt, rs1, rs2.
    rewrite (RPCHelpMan_ToString_well_ordered name req opt rs1 rs2 Hreq Hopt Hrs1 Hrs2)
      in Hs.
    injection Hs as <-. auto 10.
  - exfalso. unfold RPCHelpMan.ToString in Hs.
    cbn [RPCHelpMan.m_name RPCHelpMan.m_args] in Hs.
    destruct (ToString_loop_violation args Hv (EmptyString +:+ name) false) as [w Hw].
    rewrite Hw in Hs. discriminate Hs.
Qed.

(** X9: [RPCHelpMan::ToString] returns a string exactly when the
    arguments are required ones followed by optional ones and each of
    them renders; the string is then the name, each required argument
    after a space, the optional ones between "( " and " )", and a
    newline.  In every other case it aborts. *)
Theorem RPCHelpMan_ToString_returns (name : string) (args : list RPCArg.t) (s : string) :
  RPCHelpMan.ToString (RPCHelpMan.mk name args) = Done s <->
  exists req opt rs ro,
    args = req ++ opt /\
    Forall (fun a => RPCArg.m_optional a = false) req /\
    Forall (fun a => RPCArg.m_optional a = true) opt /\
    renders req rs /\ renders opt ro /\
    s = name +:+ spaced rs +:+ optional_suffix ro +:+ newline.
Proof.
  split; [apply RPCHelpMan_ToString_done_inv | ].
  intros (req & opt & rs & ro & -> & Hreq & Hopt & Hrs & Hro & ->).
  now apply RPCHelpMan_ToString_well_ordered.
Qed.

(** X10: an argument list without arguments renders as the name and a
    newline, and what [RPCHelpMan::ToString] returns always starts with
    the name and ends with a newline. *)
Theorem RPCHelpMan_ToString_frame (name : string) (args : list RPCArg.t) (s : string) :
  RPCHelpMan.ToString (RPCHelpMan.mk name args) = Done s ->
  (exists body, s = name +:+ body +:+ newline) /\
  (args = [] -> s = name +:+ newline).
Proof.
  intros Hs. split.
  - apply RPCHelpMan_ToString_done_inv in Hs
      as (req & opt & rs & ro & _ & _ & _ & _ & _ & ->).
    exists (spaced rs +:+ optional_suffix ro). now rewrite !string_app_assoc.
  - intros ->. now injection Hs as <-.
Qed.

Lemma RPCHelpMan_ToString_frame_witness :
  RPCHelpMan.ToString (RPCHelpMan.mk "stop" []) = Done ("stop" +:+ newline) /\
  exists body, "stop" +:+ newline = "stop" +:+ body +:+ newline.
Proof.
  split; [reflexivity | ].
  exact (proj1 (RPCHelpMan_ToString_frame "stop" [] _ eq_refl)).
Defined.

(** ** Destinations and their blinding keys *)

(** X11: [DescribeAddress] does not look at the blinding key: a
    destination and the same destination with its key cleared are
    described alike. *)
Theorem DescribeAddress_ignores_blinding_key (d : CTxDestination) :
  DescribeAddress (clear_blinding_key d) = DescribeAddress d.
Proof. destruct d; reflexivity. Qed.

(** X12: [DescribeBlindAddress] always returns an object, with the keys
    confidential_key and unconfidential, in this order, for the four
    variants it reports a key for and with no key at all for the others. *)
Theorem DescribeBlindAddress_keys `{KeyValidator} `{AddressCodec} (d : CTxDestination) :
  isObject (DescribeBlindAddress d) = true /\
  keys_of (DescribeBlindAddress d) =
  if blinding_capable d then ["confidential_key"; "unconfidential"] else [].
Proof.
  destruct (blinding_capable d) eqn:Hcap.
  - unfold DescribeBlindAddress.
    rewrite (DescribeBlindAddressVisitor_capable d Hcap).
    destruct (IsFullyValid _); rewrite pushKVs_empty_obj; split; reflexivity.
  - destruct d; try discriminate Hcap; split; reflexivity.
Qed.

Lemma clear_blinding_key_key (d : CTxDestination) :
  GetDestinationBlindingKey (clear_blinding_key d) = CPubKey_default.
Proof. destruct d; reflexivity. Qed.

Lemma clear_blinding_key_capable (d : CTxDestination) :
  blinding_capable (clear_blinding_key d) = blinding_capable d.
Proof. destruct d; reflexivity. Qed.

Lemma clear_blinding_key_idem (d : CTxDestination) :
  clear_blinding_key (clear_blinding_key d) = clear_blinding_key d.
Proof. destruct d; reflexivity. Qed.

Lemma DescribeBlindAddress_capable_eq `{KeyValidator} `{AddressCodec} (d : CTxDestination) :
  blinding_capable d = true ->
  DescribeBlindAddress d =
  if IsBlindDestination d then
    VOBJ [("confidential_key", VSTR (HexStr (GetDestinationBlindingKey d)));
          ("unconfidential", VSTR (EncodeDestination (clear_blinding_key d)))]
  else
    VOBJ [("confidential_key", VSTR EmptyString);
          ("unconfidential", VSTR (EncodeDestination d))].
Proof.
  intros Hcap. unfold DescribeBlindAddress, IsBlindDestination.
  rewrite (DescribeBlindAddressVisitor_capable d Hcap).
  destruct (IsFullyValid _); apply pushKVs_empty_obj.
Qed.

(** X13: where the empty key is not a valid key, a destination with its
    blinding key cleared is not blind; for the four variants with a
    reported key it is described with an empty confidential_key and its
    own encoding, and this unconfidential string is the one reported for
    the blind destination it came from. *)
Theorem clear_blinding_key_unblinds `{KeyValidator} `{AddressCodec} (d : CTxDestination) :
  IsFullyValid CPubKey_default = false ->
  IsBlindDestination (clear_blinding_key d) = false /\
  (blinding_capable d = true ->
     DescribeBlindAddress (clear_blinding_key d) =
       VOBJ [("confidential_key", VSTR EmptyString);
             ("unconfidential", VSTR (EncodeDestination (clear_blinding_key d)))] /\
     (IsBlindDestination d = true ->
        find_value (DescribeBlindAddress d) "unconfidential"
        = find_value (DescribeBlindAddress (clear_blinding_key d)) "unconfidential")).
Proof.
  intros Hdefault.
  assert (Hnot : IsBlindDestination (clear_blinding_key d) = false).
  { unfold IsBlindDestination. now rewrite clear_blinding_key_key. }
  split; [exact Hnot | ]. intros Hcap.
  assert (Hclear : DescribeBlindAddress (clear_blinding_key d) =
            VOBJ [("confidential_key", VSTR EmptyString);
                  ("unconfidential", VSTR (EncodeDestination (clear_blinding_key d)))]).
  { rewrite DescribeBlindAddress_capable_eq
      by now rewrite clear_blinding_key_capable.
    now rewrite Hnot. }
  split; [exact Hclear | ]. intros Hblind.
  rewrite Hclear, (DescribeBlindAddress_capable_eq d Hcap), Hblind. reflexivity.
Qed.

Lemma clear_blinding_key_unblinds_witness :
  @IsFullyValid Sample.validator CPubKey_default = false /\
  @IsBlindDestination Sample.validator Sample.blinded_pkh = true /\
  @IsBlindDestination Sample.validator (clear_blinding_key Sample.blinded_pkh) = false.
Proof.
  assert (Hdefault : @IsFullyValid Sample.validator CPubKey_default = false)
    by reflexivity.
  split; [exact Hdefault | ]. split; [reflexivity | ].
  exact (proj1 (@clear_blinding_key_unblinds Sample.validator Sample.codec
                  Sample.blinded_pkh Hdefault)).
Defined.

Lemma HexStr_empty (bs : bytes) : HexStr bs = EmptyString -> bs = [].
Proof. destruct bs; [reflexivity | discriminate]. Qed.

(** X14: where the empty key is not a valid key, the confidential_key
    reported for a PubkeyHash, ScriptHash, WitnessV0PubkeyHash or
    WitnessV0ScriptHash destination is the empty string exactly when the
    destination is not blind. *)
Theorem confidential_key_empty_iff `{KeyValidator} `{AddressCodec} (d : CTxDestination) :
  IsFullyValid CPubKey_default = false ->
  blinding_capable d = true ->
  find_value (DescribeBlindAddress d) "confidential_key" = Some (VSTR EmptyString)
  <-> IsBlindDestination d = false.
Proof.
  intros Hdefault Hcap. rewrite (DescribeBlindAddress_capable_eq d Hcap).
  destruct (IsBlindDestination d) eqn:Hblind; cbn [find_value lookupKV String.eqb].
  - split; [ | discriminate]. intros [= Hhex%HexStr_empty].
    unfold IsBlindDestination in Hblind. rewrite Hhex in Hblind.
    unfold CPubKey_default in Hdefault. congruence.
  - split; reflexivity.
Qed.

Lemma confidential_key_empty_iff_witness :
  @IsFullyValid Sample.validator CPubKey_default = false /\
  blinding_capable (clear_blinding_key Sample.blinded_pkh) = true /\
  @IsBlindDestination Sample.validator (clear_blinding_key Sample.blinded_pkh) = false /\
  find_value
    (@DescribeBlindAddress Sample.validator Sample.codec
       (clear_blinding_key Sample.blinded_pkh)) "confidential_key"
  = Some (VSTR EmptyString).
Proof.
  assert (Hdefault : @IsFullyValid Sample.validator CPubKey_default = false)
    by reflexivity.
  assert (Hcap : blinding_capable (clear_blinding_key Sample.blinded_pkh) = true)
    by reflexivity.
  assert (Hnot : @IsBlindDestination Sample.validator
                   (clear_blinding_key Sample.blinded_pkh) = false) by reflexivity.
  split; [exact Hdefault | ]. split; [exact Hcap | ]. split; [exact Hnot | ].
  exact (proj2 (@confidential_key_empty_iff Sample.validator Sample.codec _ Hdefault Hcap)
           Hnot).
Defined.

(** X15: where the empty key is not a valid key, NoDestination and
    NullData are never blind; a WitnessUnknown destination is blind when
    its stored key is fully valid, and is still described by an empty
    object, without its key. *)
Theorem blind_without_description `{KeyValidator} `{AddressCodec} :
  IsFullyValid CPubKey_default = false ->
  IsBlindDestination DNoDestination = false /\
  (forall id, IsBlindDestination (DNullData id) = false) /\
  (forall id, IsFullyValid (WitnessUnknown_blinding_pubkey id) = true ->
              IsBlindDestination (DWitnessUnknown id) = true /\
              DescribeBlindAddress (DWitnessUnknown id) = VOBJ []).
Proof.
  intros Hdefault. split; [exact Hdefault | ]. split; [intros; exact Hdefault | ].
  intros id Hid. split; [exact Hid | reflexivity].
Qed.

Lemma blind_without_description_witness :
  @IsFullyValid Sample.validator CPubKey_default = false /\
  @IsBlindDestination Sample.validator
    (DWitnessUnknown (mkWitnessUnknown 1 2 [x51; x52]%byte Sample.key33)) = true /\
  @DescribeBlindAddress Sample.validator Sample.codec
    (DWitnessUnknown (mkWitnessUnknown 1 2 [x51; x52]%byte Sample.key33)) = VOBJ [].
Proof.
  assert (Hdefault : @IsFullyValid Sample.validator CPubKey_default = false)
    by reflexivity.
  split; [exact Hdefault | ].
  exact (proj2 (proj2 (@blind_without_description Sample.validator Sample.codec Hdefault))
           (mkWitnessUnknown 1 2 [x51; x52]%byte Sample.key33) eq_refl).
Defined.

(** ** Multisig redeem scripts, continued *)

(** X16: [CreateMultisigRedeemscript] returns a script exactly when
    1 <= required <= number of keys <= 16 and the script built for them
    is no longer than MAX_SCRIPT_ELEMENT_SIZE; it returns that script.
    More than 16 keys never succeed, whatever their number. *)
Theorem CreateMultisigRedeemscript_returns `{ScriptEncoder}
    (required : Z) (pubkeys : list CPubKey) (r : bytes) :
  CreateMultisigRedeemscript required pubkeys = Return r <->
  1 <= required <= size_of pubkeys /\ size_of pubkeys <= 16 /\
  r = GetScriptForMultisig required pubkeys /\
  size_of r <= MAX_SCRIPT_ELEMENT_SIZE.
Proof.
  unfold CreateMultisigRedeemscript.
  assert (Hpos : 0 <= size_of pubkeys) by (unfold size_of; lia).
  destruct (Z.ltb_spec required 1) as [H1 | H1];
    [split; [discriminate | lia] | ].
  destruct (Z.gtb_spec (size_of pubkeys) 16) as [H3 | H3].
  { destruct (to_int (size_of pubkeys) <? required); split; try discriminate; lia. }
  rewrite to_int_id by (unfold INT_MIN, INT_MAX; lia).
  destruct (Z.ltb_spec (size_of pubkeys) required) as [H2 | H2];
    [split; [discriminate | lia] | ].
  destruct (Z.gtb_spec (size_of (GetScriptForMultisig required pubkeys))
              MAX_SCRIPT_ELEMENT_SIZE) as [H4 | H4].
  - split; [discriminate | ]. intros (_ & _ & -> & ?). lia.
  - split.
    + intros [= <-]. repeat split; lia || reflexivity.
    + intros (_ & _ & -> & _). reflexivity.
Qed.

Lemma msg_required_lt_1_head : exists rest, msg_required_lt_1 = String "a" rest.
Proof. now eexists. Qed.

Lemma msg_not_enough_keys_head (size required : Z) :
  exists rest, msg_not_enough_keys size required = String "n" rest.
Proof. now eexists. Qed.

Lemma msg_too_many_keys_head : exists rest, msg_too_many_keys = String "N" rest.
Proof. now eexists. Qed.

Lemma msg_script_too_large_head (size limit : Z) :
  exists rest, msg_script_too_large size limit = String "r" rest.
Proof. now eexists. Qed.

(** X17: the message of a failure tells which check failed: for a key
    count an int holds, the message is the one about the threshold
    exactly when required < 1, the one about too few keys exactly when
    1 <= required and there are fewer keys, the one about too many keys
    exactly when 1 <= required <= number of keys and this number exceeds
    16, and the one about the script size in the remaining case. *)
Theorem CreateMultisigRedeemscript_message `{ScriptEncoder}
    (required : Z) (pubkeys : list CPubKey) (e : JSONRPCError) :
  size_of pubkeys <= INT_MAX ->
  CreateMultisigRedeemscript required pubkeys = Throw e ->
  let n := size_of pubkeys in
  let script := GetScriptForMultisig required pubkeys in
  (message e = msg_required_lt_1 <-> required < 1) /\
  (message e = msg_not_enough_keys n required <-> 1 <= required /\ n < required) /\
  (message e = msg_too_many_keys <-> 1 <= required <= n /\ 16 < n) /\
  (message e = msg_script_too_large (size_of script) MAX_SCRIPT_ELEMENT_SIZE <->
   1 <= required <= n /\ n <= 16).
Proof.
  intros Hn Hthrow n script. subst n script.
  destruct msg_required_lt_1_head as [r1 E1].
  destruct (msg_not_enough_keys_head (size_of pubkeys) required) as [r2 E2].
  destruct msg_too_many_keys_head as [r3 E3].
  destruct (msg_script_too_large_head
              (size_of (GetScriptForMultisig required pubkeys)) MAX_SCRIPT_ELEMENT_SIZE)
    as [r4 E4].
  revert Hthrow. unfold CreateMultisigRedeemscript.
  rewrite to_int_id by (unfold size_of, INT_MIN in *; lia).
  destruct (Z.ltb_spec required 1) as [H1 | H1].
  { intros [= <-]. cbn [message]. rewrite E1, E2, E3, E4.
    repeat split; intros; try lia; try discriminate; try reflexivity. }
  destruct (Z.ltb_spec (size_of pubkeys) required) as [H2 | H2].
  { intros [= <-]. cbn [message]. rewrite E1, E2, E3, E4.
    repeat split; intros; try lia; try discriminate; try reflexivity. }
  destruct (Z.gtb_spec (size_of pubkeys) 16) as [H3 | H3].
  { intros [= <-]. cbn [message]. rewrite E1, E2, E3, E4.
    repeat split; intros; try lia; try discriminate; try reflexivity. }
  destruct (Z.gtb_spec (size_of (GetScriptForMultisig required pubkeys))
              MAX_SCRIPT_ELEMENT_SIZE) as [H4 | H4]; [ | discriminate].
  intros [= <-]. cbn [message]. rewrite E1, E2, E3, E4.
  repeat split; intros; try lia; try discriminate; try reflexivity.
Qed.

Lemma CreateMultisigRedeemscript_message_witness :
  size_of (repeat Sample.key33 17) <= INT_MAX /\
  @CreateMultisigRedeemscript Sample.encoder 1 (repeat Sample.key33 17)
  = Throw (mkError RPC_INVALID_PARAMETER msg_too_many_keys) /\
  (1 <= 1 <= size_of (repeat Sample.key33 17) /\ 16 < size_of (repeat Sample.key33 17)).
Proof.
  assert (Hn : size_of (repeat Sample.key33 17) <= INT_MAX) by (vm_compute; discriminate).
  split; [exact Hn | ]. split; [reflexivity | ].
  destruct (@CreateMultisigRedeemscript_message Sample.encoder 1 (repeat Sample.key33 17)
              _ Hn eq_refl) as (_ & _ & Hmany & _).
  exact (proj1 Hmany eq_refl).
Defined.

(** ** Asset balances, continued *)

Lemma findKey_None (kvs : list (string * UniValue)) (k : string) :
  lookupKV kvs k = None -> findKey kvs k = None.
Proof.
  induction kvs as [ | [k0 v0] kvs IH]; simpl; [reflexivity | ].
  destruct (String.eqb k0 k); [discriminate | ].
  intros Hk. now rewrite (IH Hk).
Qed.

Lemma pushKV_fresh (kvs : list (string * UniValue)) (k : string) (v : UniValue) :
  lookupKV kvs k = None -> entries (pushKV (VOBJ kvs) k v) = kvs ++ [(k, v)].
Proof. intros Hk. unfold pushKV. now rewrite (findKey_None _ _ Hk). Qed.

Lemma lookupKV_snoc (kvs : list (string * UniValue)) (k' : string) (v : UniValue)
    (k : string) :
  lookupKV kvs k = None ->
  lookupKV (kvs ++ [(k', v)]) k = if String.eqb k' k then Some v else None.
Proof.
  induction kvs as [ | [k0 v0] kvs IH]; simpl; [reflexivity | ].
  destruct (String.eqb k0 k); [discriminate | exact IH].
Qed.

Section report_exact.
Context `{AssetsEnv}.

Lemma report_fresh_labels (L : list (CAsset * CAmount)) :
  forall kvs,
    NoDup (map (fun it => asset_label (fst it)) (List.filter not_null L)) ->
    (forall it, In it (List.filter not_null L) ->
                lookupKV kvs (asset_label (fst it)) = None) ->
    report L kvs = kvs ++ map report_entry (List.filter not_null L).
Proof.
  induction L as [ | [a v] L IH]; intros kvs Hnd Hfresh.
  - unfold report. simpl. now rewrite app_nil_r.
  - rewrite report_cons. destruct (IsNull a) eqn:Hnull.
    + assert (Hf : List.filter not_null ((a, v) :: L) = List.filter not_null L).
      { cbn [List.filter]. unfold not_null at 1. cbn [fst]. now rewrite Hnull. }
      rewrite Hf in *. now apply IH.
    + assert (Hf : List.filter not_null ((a, v) :: L) = (a, v) :: List.filter not_null L).
      { cbn [List.filter]. unfold not_null at 1. cbn [fst]. now rewrite Hnull. }
      rewrite Hf in *. cbn [map fst] in Hnd. apply NoDup_cons in Hnd as [Hnotin Hnd].
      rewrite pushKV_fresh by (apply (Hfresh (a, v)); now left).
      rewrite IH; [ | exact Hnd | ].
      * cbn [map]. unfold report_entry at 2. cbn [fst snd].
        now rewrite <- app_assoc.
      * intros it Hit. rewrite lookupKV_snoc by (apply Hfresh; now right).
        destruct (String.eqb _ _) eqn:E; [ | reflexivity].
        apply String.eqb_eq in E. exfalso. apply Hnotin.
        rewrite E. apply list_elem_of_In.
        now apply (in_map (fun it => asset_label (fst it))).
Qed.

Lemma map_entries_NoDup (m : gmap N Z) : NoDup (map_entries m).
Proof.
  unfold map_entries. rewrite merge_sort_Permutation. apply NoDup_map_to_list.
Qed.

Lemma asset_le_total : Total asset_le.
Proof. intros x y. unfold asset_le. lia. Qed.

Lemma map_entries_sorted (m : gmap N Z) : Sorted asset_le (map_entries m).
Proof. unfold map_entries. apply (Sorted_merge_sort asset_le (Total0:=asset_le_total)). Qed.

Lemma report_labels_NoDup (m : gmap N Z) :
  labels_distinct m ->
  NoDup (map (fun it => asset_label (fst it))
           (List.filter not_null (map_entries (with_policy m)))).
Proof.
  intros Hdistinct. apply (NoDup_fmap_2_strong (fun it => asset_label (fst it))).
  - intros [a v] [b w] Ha Hb Hlabel. cbn [fst] in Hlabel.
    apply list_elem_of_In, filter_In in Ha as [Ha Hna].
    apply list_elem_of_In, filter_In in Hb as [Hb Hnb].
    apply list_elem_of_In, elem_of_map_entries, with_policy_reported in Ha as [Ha ->].
    apply list_elem_of_In, elem_of_map_entries, with_policy_reported in Hb as [Hb ->].
    unfold not_null in Hna, Hnb. cbn [fst] in Hna, Hnb.
    apply negb_true_iff in Hna, Hnb.
    now rewrite (Hdistinct a b Ha Hb Hna Hnb Hlabel).
  - apply NoDup_ListNoDup, List.NoDup_filter, NoDup_ListNoDup, map_entries_NoDup.
Qed.

End report_exact.

(** X18: [AmountMapToUniv] throws exactly when, in multi-asset mode, a
    non-empty filter is given and the asset lookup throws; the error is
    the lookup's.  Nothing else makes it throw. *)
Theorem AmountMapToUniv_throws `{AssetsEnv} (m : gmap N Z) (strasset : string)
    (e : JSONRPCError) :
  AmountMapToUniv m strasset = Throw e <->
  g_con_elementsmode = true /\ strasset <> EmptyString /\
  GetAssetFromString strasset = Throw e.
Proof.
  rewrite AmountMapToUniv_unfold.
  destruct g_con_elementsmode; cbn [negb orb].
  - destruct (String.eqb_spec strasset EmptyString) as [-> | Hne]; cbn [negb].
    + split; [discriminate | ]. now intros (_ & ? & _).
    + destruct (GetAssetFromString strasset) as [a | e']; simpl.
      * split; [discriminate | ]. intros (_ & _ & ?). discriminate.
      * split; [intros [= <-]; auto | intros (_ & _ & [= <-]); reflexivity].
  - split; [discriminate | ]. intros (? & _). discriminate.
Qed.

(** X19: what [AmountMapToUniv] returns is a number when multi-asset mode
    is off or a filter is given, and an object otherwise. *)
Theorem AmountMapToUniv_kind `{AssetsEnv} (m : gmap N Z) (strasset : string)
    (v : UniValue) :
  AmountMapToUniv m strasset = Return v ->
  if negb g_con_elementsmode || negb (String.eqb strasset EmptyString)
  then isNum v = true
  else isObject v = true.
Proof.
  rewrite AmountMapToUniv_unfold.
  destruct (negb g_con_elementsmode || negb (String.eqb strasset EmptyString)).
  - destruct g_con_elementsmode.
    + destruct (GetAssetFromString strasset); simpl; [ | discriminate].
      now intros [= <-].
    + now intros [= <-].
  - rewrite report_is_obj. now intros [= <-].
Qed.

Lemma AmountMapToUniv_kind_witness :
  @AmountMapToUniv Sample.elements_env Sample.balance_A_policy "A"
  = Return (ValueFromAmount 7) /\
  isNum (ValueFromAmount 7) = true.
Proof.
  split; [vm_compute; reflexivity | ].
  exact (@AmountMapToUniv_kind Sample.elements_env Sample.balance_A_policy "A"
           (ValueFromAmount 7) eq_refl).
Defined.

(** X20: in multi-asset mode without filter, where labels tell the
    reported assets apart, the object has exactly one entry, label and
    amount, for each entry of the map with the policy asset added whose
    asset is not null, in ascending order of the assets. *)
Theorem AmountMapToUniv_report_exact `{AssetsEnv} (m : gmap N Z) :
  g_con_elementsmode = true ->
  labels_distinct m ->
  AmountMapToUniv m EmptyString =
    Return (VOBJ (map report_entry
                    (List.filter not_null (map_entries (with_policy m))))) /\
  Sorted asset_le (map_entries (with_policy m)) /\
  NoDup (map fst (map_entries (with_policy m))) /\
  (forall a v, In (a, v) (map_entries (with_policy m)) <->
               reported m a /\ v = amount_of m a).
Proof.
  intros Hmode Hdistinct. split; [ | split; [ | split]].
  - rewrite AmountMapToUniv_unfold, Hmode. cbn [negb orb String.eqb].
    rewrite report_is_obj.
    rewrite report_fresh_labels; [reflexivity | now apply report_labels_NoDup | reflexivity].
  - apply map_entries_sorted.
  - unfold map_entries. rewrite merge_sort_Permutation. apply NoDup_fst_map_to_list.
  - intros a v. rewrite <- list_elem_of_In, elem_of_map_entries.
    apply with_policy_reported.
Qed.

Lemma Sample_labels_distinct :
  @labels_distinct Sample.elements_env Sample.balance_with_null.
Proof.
  intros a b _ _ _ _. unfold asset_label. cbn [GetLabel GetHex Sample.elements_env].
  unfold Sample.label_of, Sample.hex_of.
  destruct (N.eqb_spec a 1) as [-> | Ha], (N.eqb_spec b 1) as [-> | Hb];
    cbn [String.eqb Ascii.eqb Bool.eqb]; try reflexivity; try discriminate.
  now intros ?%(inj (String.app "0x"))%(inj pretty).
Qed.

Lemma AmountMapToUniv_report_exact_witness :
  @g_con_elementsmode Sample.elements_env = true /\
  @AmountMapToUniv Sample.elements_env Sample.balance_with_null EmptyString =
    Return (VOBJ (map (@report_entry Sample.elements_env)
                    (List.filter not_null
                       (map_entries (@with_policy Sample.elements_env
                                       Sample.balance_with_null))))).
Proof.
  split; [reflexivity | ].
  exact (proj1 (@AmountMapToUniv_report_exact Sample.elements_env Sample.balance_with_null
                  eq_refl Sample_labels_distinct)).
Defined.

(** X21: in multi-asset mode, where labels tell the reported assets
    apart, the amount returned for a filter that names a reported asset
    which is not null is the amount the unfiltered report has under that
    asset's label. *)
Theorem AmountMapToUniv_filter_agrees `{AssetsEnv} (m : gmap N Z) (strasset : string)
    (asset : CAsset) :
  g_con_elementsmode = true ->
  labels_distinct m ->
  strasset <> EmptyString ->
  GetAssetFromString strasset = Return asset ->
  reported m asset -> IsNull asset = false ->
  exists kvs v,
    AmountMapToUniv m EmptyString = Return (VOBJ kvs) /\
    AmountMapToUniv m strasset = Return v /\
    lookupKV kvs (asset_label asset) = Some v.
Proof.
  intros Hmode Hdistinct Hne Hasset Hrep Hnn.
  exists (report (map_entries (with_policy m)) []), (ValueFromAmount (amount_of m asset)).
  split; [ | split].
  - rewrite AmountMapToUniv_unfold, Hmode. cbn [negb orb String.eqb].
    now rewrite report_is_obj.
  - rewrite AmountMapToUniv_unfold, Hmode, Hasset.
    apply String.eqb_neq in Hne. now rewrite Hne.
  - apply report_amount; [ | | exact Hnn].
    + intros a' v' Hin' Hnn' Hlabel.
      apply elem_of_map_entries, with_policy_reported in Hin' as [Ha' ->].
      now rewrite (Hdistinct a' asset Ha' Hrep Hnn' Hnn Hlabel).
    + apply elem_of_map_entries, with_policy_reported. now split.
Qed.

Lemma AmountMapToUniv_filter_agrees_witness :
  "A" <> EmptyString /\
  @reported Sample.elements_env Sample.balance_with_null 5%N /\
  exists kvs v,
    @AmountMapToUniv Sample.elements_env Sample.balance_with_null EmptyString
    = Return (VOBJ kvs) /\
    @AmountMapToUniv Sample.elements_env Sample.balance_with_null "A" = Return v /\
    lookupKV kvs (@asset_label Sample.elements_env 5%N) = Some v.
Proof.
  assert (Hne : "A" <> EmptyString) by discriminate.
  assert (Hrep : @reported Sample.elements_env Sample.balance_with_null 5%N)
    by (left; now eexists).
  split; [exact Hne | ]. split; [exact Hrep | ].
  exact (@AmountMapToUniv_filter_agrees Sample.elements_env Sample.balance_with_null
           "A" 5%N eq_refl Sample_labels_distinct Hne eq_refl Hrep eq_refl).
Defined.

(** X22: a map without entry for the policy asset and the same map with
    the policy asset at amount 0 give the same result, for every filter
    and in either mode. *)
Theorem AmountMapToUniv_policy_zero `{AssetsEnv} (m : gmap N Z) (strasset : string) :
  m !! policyAsset = None ->
  AmountMapToUniv (<[policyAsset := 0]> m) strasset = AmountMapToUniv m strasset.
Proof.
  intros Habsent.
  assert (Hamount : forall a, amount_of (<[policyAsset := 0]> m) a = amount_of m a).
  { intros a. unfold amount_of. destruct (decide (a = policyAsset)) as [-> | Ha].
    - now rewrite lookup_insert_eq, Habsent.
    - now rewrite lookup_insert_ne. }
  assert (Hwith : with_policy (<[policyAsset := 0]> m) = with_policy m).
  { unfold with_policy. rewrite Hamount, insert_insert_eq. reflexivity. }
  rewrite !AmountMapToUniv_unfold, Hwith, Hamount.
  destruct (negb g_con_elementsmode || negb (String.eqb strasset EmptyString));
    [ | reflexivity].
  destruct g_con_elementsmode; [ | reflexivity].
  destruct (GetAssetFromString strasset); simpl; [ | reflexivity].
  now rewrite Hamount.
Qed.

Lemma AmountMapToUniv_policy_zero_witness :
  (<[5%N := 7]> ∅ : gmap N Z) !! (@policyAsset Sample.elements_env) = None /\
  @AmountMapToUniv Sample.elements_env
    (<[@policyAsset Sample.elements_env := 0]> (<[5%N := 7]> ∅)) EmptyString
  = @AmountMapToUniv Sample.elements_env (<[5%N := 7]> ∅) EmptyString.
Proof.
  assert (Habsent : (<[5%N := 7]> ∅ : gmap N Z) !! (@policyAsset Sample.elements_env)
                    = None) by reflexivity.
  split; [exact Habsent | ].
  exact (@AmountMapToUniv_policy_zero Sample.elements_env _ EmptyString Habsent).
Defined.
